(** * Regression models of [neuroimaging.statistics.regression]

    A shallow embedding of [regression.py]: ordinary, AR(1) and weighted
    least squares models, the container of fit results with its T and F
    contrasts, and the contrast utilities [contrastfromcols] and
    [isestimable].

    Numbers are the elements of an Archimedean real field [F]: the
    development is about the algebra the module performs, not about the
    rounding of float64, and what float64 holds after a division by 0 is
    left unspecified.  [numpy] arrays are the arrays of rank 0, 1 and 2
    the module manipulates, with their shape checked at run time as [numpy]
    does; a Python exception is an explicit result. *)

From HB Require Import structures.
From mathcomp Require Import boot order.
From mathcomp Require Import ssralg ssrnum ssrint rat matrix mxalgebra archimedean.

Set Implicit Arguments.
Unset Strict Implicit.
Unset Printing Implicit Defensive.

Import GRing.Theory Num.Theory Order.Theory.
Local Open Scope ring_scope.

(** ** Python results *)

(** The exceptions the module and its numeric backend raise. *)
Inductive exn : Type :=
  | ValueError | NameError | AttributeError | IndexError | TypeError
  | LinAlgError.

Inductive result (A : Type) : Type :=
  | Ok (a : A)
  | Raise (e : exn).
Arguments Ok {A} a.
Arguments Raise {A} e.

Definition rbind A B (r : result A) (k : A -> result B) : result B :=
  match r with Ok a => k a | Raise e => Raise e end.

Definition rmap A B (f : A -> B) (r : result A) : result B :=
  match r with Ok a => Ok (f a) | Raise e => Raise e end.

Definition raises A (r : result A) (e : exn) : Prop := r = Raise e.

Definition returns A (r : result A) : Prop := exists a, r = Ok a.

Declare Scope py_scope.
Delimit Scope py_scope with py.
Notation "x <- r ;; k" := (rbind r (fun x => k))
  (at level 100, r at next level, right associativity) : py_scope.
Local Open Scope py_scope.

(** ** Numbers that are not finite *)

(** [numpy] divides by 0 without an exception, and the quotient it stores
    is [inf], [-inf] or [nan], none of which is a number of the field.  The
    development does not say what an array holds there: [div0 x] stands for
    [x / 0] and nothing is assumed about it, so that a theorem states the
    value of a quotient only where the divisor is proved not to be 0. *)
Class nonfinite (F : Type) : Type := Nonfinite { div0 : F -> F }.

(** ** Arrays *)

Section Arrays.

Variable F : archiRealFieldType.
Context {NF : nonfinite F}.

(** An [ndarray] of rank at most two.  A 1-D array of length [n] is kept as
    a row. *)
Inductive ndarray : Type :=
  | Arr0 (x : F)
  | Arr1 (n : nat) (v : 'rV[F]_n)
  | Arr2 (m n : nat) (A : 'M[F]_(m, n)).

Definition shape (a : ndarray) : seq nat :=
  match a with
  | Arr0 _ => [::]
  | Arr1 n _ => [:: n]
  | Arr2 m n _ => [:: m; n]
  end.

Definition ndim (a : ndarray) : nat := size (shape a).

(** [a.shape[k]]: a tuple index out of range is an [IndexError]. *)
Definition shape_at (a : ndarray) (k : nat) : result nat :=
  if (k < ndim a)%N then Ok (nth 0%N (shape a) k) else Raise IndexError.

(** Entry [(i, j)] of a matrix by natural-number indices. *)
Definition at_ m n (A : 'M[F]_(m, n)) (i j : nat) : F :=
  match insub i, insub j with
  | Some i', Some j' => A i' j'
  | _, _ => 0
  end.

(** A matrix seen at another, dynamically equal, shape. *)
Definition recast m n m' n' (A : 'M[F]_(m, n)) : option 'M[F]_(m', n') :=
  if (m == m') && (n == n') then Some (\matrix_(i < m', j < n') at_ A i j)
  else None.

(** The elements in row-major order ([a.flat]). *)
Definition flat (a : ndarray) : seq F :=
  match a with
  | Arr0 x => [:: x]
  | Arr1 n v => [seq v 0 j | j <- enum 'I_n]
  | Arr2 m n A => [seq A ij.1 ij.2 | ij <- enum {: 'I_m * 'I_n}]
  end.

Definition all_zero (a : ndarray) : bool := all (fun x => x == 0) (flat a).

(** A Python [int] or [float] operand of an array expression. *)
Definition scalar (x : F) : ndarray := Arr0 x.
Definition py_int (k : int) : ndarray := Arr0 k%:~R.

(** *** Elementwise arithmetic with broadcasting *)

(** The common length of two axes, when they broadcast. *)
Definition bdim (m1 m2 : nat) : option nat :=
  if m1 == m2 then Some m1
  else if m1 == 1%N then Some m2
  else if m2 == 1%N then Some m1
  else None.

(** The index read on an axis of length [m] when the result index is [i]. *)
Definition bidx (m i : nat) : nat := if m == 1%N then 0%N else i.

Definition broadcast (op : F -> F -> F) (a b : ndarray) : result ndarray :=
  match a, b with
  | Arr0 x, Arr0 y => Ok (Arr0 (op x y))
  | Arr0 x, Arr1 _ w => Ok (Arr1 (map_mx (op x) w))
  | Arr0 x, Arr2 _ _ B => Ok (Arr2 (map_mx (op x) B))
  | Arr1 _ v, Arr0 y => Ok (Arr1 (map_mx (op^~ y) v))
  | Arr2 _ _ A, Arr0 y => Ok (Arr2 (map_mx (op^~ y) A))
  | Arr1 n1 v, Arr1 n2 w =>
      if bdim n1 n2 is Some n then
        Ok (Arr1 (\row_(j < n) op (at_ v 0 (bidx n1 j)) (at_ w 0 (bidx n2 j))))
      else Raise ValueError
  | Arr1 n1 v, Arr2 m n2 B =>
      if bdim n1 n2 is Some n then
        Ok (Arr2 (\matrix_(i < m, j < n)
                    op (at_ v 0 (bidx n1 j)) (at_ B i (bidx n2 j))))
      else Raise ValueError
  | Arr2 m n1 A, Arr1 n2 w =>
      if bdim n1 n2 is Some n then
        Ok (Arr2 (\matrix_(i < m, j < n)
                    op (at_ A i (bidx n1 j)) (at_ w 0 (bidx n2 j))))
      else Raise ValueError
  | Arr2 m1 n1 A, Arr2 m2 n2 B =>
      match bdim m1 m2, bdim n1 n2 with
      | Some m, Some n =>
          Ok (Arr2 (\matrix_(i < m, j < n)
                      op (at_ A (bidx m1 i) (bidx n1 j))
                         (at_ B (bidx m2 i) (bidx n2 j))))
      | _, _ => Raise ValueError
      end
  end.

Definition N_add := broadcast +%R.
Definition N_sub := broadcast (fun x y => x - y).
Definition N_mul := broadcast *%R.

(** [x / y] on two numbers: the quotient of the field when [y] is not 0,
    and [div0 x], of which nothing is known, when it is. *)
Definition divide (x y : F) : F := if y == 0 then div0 x else x / y.

Definition N_div := broadcast divide.

Definition amap (f : F -> F) (a : ndarray) : ndarray :=
  match a with
  | Arr0 x => Arr0 (f x)
  | Arr1 _ v => Arr1 (map_mx f v)
  | Arr2 _ _ A => Arr2 (map_mx f A)
  end.

(** [a ** 2] *)
Definition N_square : ndarray -> ndarray := amap (fun x => x ^+ 2).

(** *** Products, transposition and reductions *)

(** [N.dot(a, b)] *)
Definition N_dot (a b : ndarray) : result ndarray :=
  match a, b with
  | Arr0 x, _ => Ok (amap ( *%R x) b)
  | _, Arr0 y => Ok (amap ( *%R^~ y) a)
  | Arr1 n v, Arr1 n' w =>
      if recast n 1 w^T is Some w' then Ok (Arr0 ((v *m w') 0 0))
      else Raise ValueError
  | Arr1 n v, Arr2 m k B =>
      if recast n k B is Some B' then Ok (Arr1 (v *m B'))
      else Raise ValueError
  | Arr2 m n A, Arr1 n' w =>
      if recast n 1 w^T is Some w' then Ok (Arr1 (A *m w')^T)
      else Raise ValueError
  | Arr2 m n A, Arr2 n' k B =>
      if recast n k B is Some B' then Ok (Arr2 (A *m B'))
      else Raise ValueError
  end.

(** [N.transpose(a)] *)
Definition N_transpose (a : ndarray) : ndarray :=
  match a with
  | Arr2 _ _ A => Arr2 A^T
  | _ => a
  end.

(** [N.add.reduce(a)], which sums along the first axis. *)
Definition N_add_reduce (a : ndarray) : result ndarray :=
  match a with
  | Arr0 _ => Raise TypeError
  | Arr1 n v => Ok (Arr0 (\sum_j v 0 j))
  | Arr2 m n A => Ok (Arr1 (\row_j \sum_i A i j))
  end.

(** [N.diagonal(a)] *)
Definition N_diagonal (a : ndarray) : result ndarray :=
  match a with
  | Arr2 m n A => Ok (Arr1 (\row_(i < minn m n) at_ A i i))
  | _ => Raise ValueError
  end.

(** [N.around(x)]: the nearest integer, a tie going to the even one. *)
Definition round_half_even (x : F) : int :=
  let f := Num.floor x in
  let d := x - f%:~R in
  if d < 2%:R^-1 then f
  else if 2%:R^-1 < d then f + 1
  else if odd `|f|%N then f + 1 else f.

Definition N_around : ndarray -> ndarray :=
  amap (fun x => (round_half_even x)%:~R).

(** [int(a)] of a 0-d array: truncation towards zero. *)
Definition int_of (a : ndarray) : result int :=
  match a with
  | Arr0 x => Ok (if 0 <= x then Num.floor x else Num.ceil x)
  | _ => Raise TypeError
  end.

(** [N.zeros(shape)] for a 2-D shape. *)
Definition N_zeros2 (m n : nat) : ndarray := Arr2 (0 : 'M[F]_(m, n)).

(** [N.squeeze(a)] removes the axes of length one. *)
Definition N_squeeze (a : ndarray) : ndarray :=
  match a with
  | Arr0 x => Arr0 x
  | Arr1 n v => if n == 1%N then Arr0 (at_ v 0 0) else a
  | Arr2 m n A =>
      if (m == 1%N) && (n == 1%N) then Arr0 (at_ A 0 0)
      else if m == 1%N then Arr1 (\row_(j < n) at_ A 0 j)
      else if n == 1%N then Arr1 (\row_(i < m) at_ A i 0)
      else a
  end.

(** [N.concatenate([a, b])] along the first axis. *)
Definition N_concatenate (a b : ndarray) : result ndarray :=
  match a, b with
  | Arr1 n1 v, Arr1 n2 w => Ok (Arr1 (row_mx v w))
  | Arr2 m1 n1 A, Arr2 m2 n2 B =>
      if recast m2 n1 B is Some B' then Ok (Arr2 (col_mx A B'))
      else Raise ValueError
  | _, _ => Raise ValueError
  end.

(** *** Indexing *)

(** [a[0]] *)
Definition getitem0 (a : ndarray) : result ndarray :=
  match a with
  | Arr0 _ => Raise IndexError
  | Arr1 n v => if (0 < n)%N then Ok (Arr0 (at_ v 0 0)) else Raise IndexError
  | Arr2 m n A =>
      if (0 < m)%N then Ok (Arr1 (\row_(j < n) at_ A 0 j)) else Raise IndexError
  end.

(** [a[1:]] *)
Definition slice_from1 (a : ndarray) : result ndarray :=
  match a with
  | Arr0 _ => Raise IndexError
  | Arr1 n v => Ok (Arr1 (\row_(j < n.-1) at_ v 0 j.+1))
  | Arr2 m n A => Ok (Arr2 (\matrix_(i < m.-1, j < n) at_ A i.+1 j))
  end.

(** [a[0:-1]] *)
Definition slice_to_last (a : ndarray) : result ndarray :=
  match a with
  | Arr0 _ => Raise IndexError
  | Arr1 n v => Ok (Arr1 (\row_(j < n.-1) at_ v 0 j))
  | Arr2 m n A => Ok (Arr2 (\matrix_(i < m.-1, j < n) at_ A i j))
  end.

(** The array made of the one-element list [[a]]. *)
Definition array_of_singleton (a : ndarray) : result ndarray :=
  match a with
  | Arr0 x => Ok (Arr1 (const_mx x : 'rV_1))
  | Arr1 n v => Ok (Arr2 v)
  | Arr2 _ _ _ => Raise ValueError
  end.

(** [a[:, i]] of a 2-D array. *)
Definition getcol (a : ndarray) (i : nat) : result ndarray :=
  match a with
  | Arr2 m n A =>
      if (i < n)%N then Ok (Arr1 (\row_(r < m) at_ A r i)) else Raise IndexError
  | _ => Raise IndexError
  end.

(** [v[:, i] = c]: the value is broadcast to the length of the column. *)
Definition setcol (v : ndarray) (i : nat) (c : ndarray) : result ndarray :=
  match v with
  | Arr2 m n V =>
      if (i < n)%N then
        let put (x : nat -> F) :=
          Ok (Arr2 (\matrix_(r < m, j < n) if j == i :> nat then x r else V r j)) in
        match c with
        | Arr0 x => put (fun _ => x)
        | Arr1 k w =>
            if bdim k m == Some m then put (fun r => at_ w 0 (bidx k r))
            else Raise ValueError
        | Arr2 l k W =>
            if (l == 1%N) && (bdim k m == Some m)
            then put (fun r => at_ W 0 (bidx k r))
            else Raise ValueError
        end
      else Raise IndexError
  | _ => Raise IndexError
  end.

(** *** The linear-algebra backend *)

(** The Moore-Penrose conditions: [B] is the pseudo-inverse of [A]. *)
Definition is_pinv m n (A : 'M[F]_(m, n)) (B : 'M[F]_(n, m)) : Prop :=
  [/\ A *m B *m A = A, B *m A *m B = B,
      (A *m B)^T = A *m B & (B *m A)^T = B *m A].

(** The Moore-Penrose pseudo-inverse, which is what [L.pinv] computes, from
    a full-rank factorisation [A = C *m R]; it is the one matrix that meets
    the four conditions ([pinvP] and [pinv_eq] below). *)
Definition pinv m n (A : 'M[F]_(m, n)) : 'M[F]_(n, m) :=
  let C := col_base A in
  let R := row_base A in
  R^T *m invmx (R *m R^T) *m (invmx (C^T *m C) *m C^T).

(** [L.pinv(a)] *)
Definition L_pinv (a : ndarray) : result ndarray :=
  match a with
  | Arr2 _ _ A => Ok (Arr2 (pinv A))
  | _ => Raise LinAlgError
  end.

(** [L.inv(a)]: a matrix that is not square or not invertible is a
    [LinAlgError]. *)
Definition L_inv (a : ndarray) : result ndarray :=
  match a with
  | Arr2 m n A =>
      match recast m m A with
      | Some A' => if A' \in unitmx then Ok (Arr2 (invmx A'))
                   else Raise LinAlgError
      | None => Raise LinAlgError
      end
  | _ => Raise LinAlgError
  end.

(** *** [utils] *)

(** Modelled from the spec: [utils.recipr], which is not part of the
    sources.  It is the reciprocal, and 0 wherever the denominator is
    exactly 0. *)
Definition recipr : ndarray -> ndarray :=
  amap (fun x => if x == 0 then 0 else x^-1).

(** Modelled from the spec: [utils.rank], which is not part of the
    sources.  It is the rank of a matrix; an array of lower rank counts as
    one row. *)
Definition rank (a : ndarray) : nat :=
  match a with
  | Arr0 x => \rank (x%:M : 'M[F]_1)
  | Arr1 _ v => \rank v
  | Arr2 _ _ A => \rank A
  end.

(** The columns [js] of [A], in that order. *)
Definition colsel m n (A : 'M[F]_(m, n)) (js : seq nat) : 'M[F]_(m, size js) :=
  \matrix_(i < m, k < size js) at_ A i (nth 0%N js k).

(** The leftmost columns of [A] that are linearly independent. *)
Definition pivots m n (A : 'M[F]_(m, n)) : seq nat :=
  foldl (fun js j =>
           if \rank (colsel A (rcons js j)) == size (rcons js j)
           then rcons js j else js)
        [::] (iota 0 n).

(** Modelled from the spec: [utils.fullrank], which is not part of the
    sources.  It extracts a full-rank column subset. *)
Definition fullrank (a : ndarray) : result ndarray :=
  match a with
  | Arr2 _ _ A => Ok (Arr2 (colsel A (pivots A)))
  | _ => Raise LinAlgError
  end.

End Arrays.

Arguments Arr0 {F} x.
Arguments N_zeros2 : clear implicits.

(** ** Objects and the store *)

Section Regression.

Variable F : archiRealFieldType.
Context {NF : nonfinite F}.

(** [N.sqrt] on one number, as the numeric backend provides it. *)
Variable Nsqrt : F -> F.

Notation ndarray := (ndarray F).

(** [N.sqrt(a)] *)
Definition N_sqrt : ndarray -> ndarray := amap Nsqrt.

(** [N.std(a)]: the standard deviation of all the elements. *)
Definition N_std (a : ndarray) : ndarray :=
  let xs := flat a in
  let mean := divide (\sum_(x <- xs) x) (size xs)%:R in
  Arr0 (Nsqrt (divide (\sum_(x <- xs) (x - mean) ^+ 2) (size xs)%:R)).

(** An array bound to a name: the object, with its identity. *)
Record obj : Type := Obj { oid : nat; val :> ndarray }.

(** What a trait or a variable of the module holds: an array or [None]. *)
Inductive value : Type := PyNone | PyArr (o : obj).

(** An array operand; [None] is rejected with a [TypeError]. *)
Definition array (v : value) : result obj :=
  match v with PyArr o => Ok o | PyNone => Raise TypeError end.

(** The three model classes; [whiten] and the change handlers dispatch on
    the class of the receiver. *)
Inductive class : Type := OLSModel | ARModel | WLSModel.

(** The attributes of a model object.  [design], [rho] and [weights] are
    traits ([None], [0.0] and [None] until they are set); the others exist
    once they have been assigned. *)
Record model : Type := Model {
  cls : class;
  design : value;
  rho : F;
  weights : value;
  wdesign : option value;
  calc_beta : option obj;
  normalized_cov_beta : option obj;
  _df_resid : option int
}.

Definition set_design v s :=
  Model (cls s) v (rho s) (weights s) (wdesign s) (calc_beta s)
        (normalized_cov_beta s) (_df_resid s).
Definition set_rho v s :=
  Model (cls s) (design s) v (weights s) (wdesign s) (calc_beta s)
        (normalized_cov_beta s) (_df_resid s).
Definition set_weights v s :=
  Model (cls s) (design s) (rho s) v (wdesign s) (calc_beta s)
        (normalized_cov_beta s) (_df_resid s).
Definition set_wdesign v s :=
  Model (cls s) (design s) (rho s) (weights s) v (calc_beta s)
        (normalized_cov_beta s) (_df_resid s).
Definition set_calc_beta v s :=
  Model (cls s) (design s) (rho s) (weights s) (wdesign s) v
        (normalized_cov_beta s) (_df_resid s).
Definition set_normalized_cov_beta v s :=
  Model (cls s) (design s) (rho s) (weights s) (wdesign s) (calc_beta s)
        v (_df_resid s).
Definition set__df_resid v s :=
  Model (cls s) (design s) (rho s) (weights s) (wdesign s) (calc_beta s)
        (normalized_cov_beta s) v.

(** A model object as [Model.__init__] leaves it when no keyword is given. *)
Definition new_model (c : class) : model :=
  Model c PyNone 0 PyNone None None None None.

(** The store: the model object the methods run on, and the identity the
    next array bound to a name receives. *)
Record store : Type := Store { self : model; next_id : nat }.

(** A method of the model: it reads and updates the store, or raises. *)
Definition M (A : Type) : Type := store -> result (A * store).

Definition ret A (a : A) : M A := fun st => Ok (a, st).

Definition bind A B (c : M A) (k : A -> M B) : M B :=
  fun st => match c st with
            | Ok (a, st') => k a st'
            | Raise e => Raise e
            end.

Definition lift A (r : result A) : M A :=
  fun st => match r with Ok a => Ok (a, st) | Raise e => Raise e end.

Notation "x <~ c ;; k" := (bind c (fun x => k))
  (at level 100, c at next level, right associativity).
Notation "c ;;; k" := (bind c (fun _ => k))
  (at level 100, right associativity).

(** A new array object. *)
Definition new (r : result ndarray) : M obj :=
  fun st => match r with
            | Ok a => Ok (Obj (next_id st) a, Store (self st) (next_id st).+1)
            | Raise e => Raise e
            end.

(** [self.name], an [AttributeError] when the attribute does not exist. *)
Definition getattr A (name : model -> option A) : M A :=
  fun st => match name (self st) with
            | Some a => Ok (a, st)
            | None => Raise AttributeError
            end.

(** [self.name] for a trait, which always has a value. *)
Definition trait A (name : model -> A) : M A :=
  fun st => Ok (name (self st), st).

Definition assign (upd : model -> model) : M unit :=
  fun st => Ok (tt, Store (upd (self st)) (next_id st)).

(** ** The models *)

(** [OLSModel.setup] *)
Definition OLSModel_setup : M unit :=
  w <~ getattr wdesign ;;
  cb <~ new (w <- array w ;; L_pinv w) ;;
  assign (set_calc_beta (Some cb)) ;;;
  ncb <~ new (N_dot cb (N_transpose cb)) ;;
  assign (set_normalized_cov_beta (Some ncb)) ;;;
  w <~ getattr wdesign ;;
  d <~ lift (w <- array w ;;
             n <- shape_at w 0 ;;
             cb_w <- N_dot cb w ;;
             dg <- N_diagonal cb_w ;;
             tr <- N_add_reduce dg ;;
             x <- N_sub (py_int F n) tr ;;
             int_of (N_around x)) ;;
  assign (set__df_resid (Some d)).

(** [OLSModel._wdesign_changed] *)
Definition OLSModel__wdesign_changed : M unit := OLSModel_setup.

(** Modelled from the spec: the change notification of the traits, which
    the missing base class [Model] provides.  Assigning [self.wdesign]
    calls [_wdesign_changed]. *)
Definition setattr_wdesign (w : value) : M unit :=
  assign (set_wdesign (Some w)) ;;; OLSModel__wdesign_changed.

(** [OLSModel.whiten] *)
Definition OLSModel_whiten (Y : value) : M value := ret Y.

(** [ARModel.whiten] *)
Definition ARModel_whiten (X : value) : M value :=
  r <~ trait rho ;;
  factor <~ lift (d <- N_sub (scalar 1) (scalar (r ^+ 2)) ;;
                  N_div (scalar 1) (N_sqrt d)) ;;
  w <~ new (X <- array X ;;
            x0 <- getitem0 X ;;
            first <- array_of_singleton x0 ;;
            tl <- slice_from1 X ;;
            hd <- slice_to_last X ;;
            lagged <- N_mul (scalar r) hd ;;
            diff <- N_sub tl lagged ;;
            rest <- N_mul diff factor ;;
            N_concatenate first rest) ;;
  ret (PyArr w).

(** [for i in range(X.shape[1]): v[:,i] = X[:,i] / c] *)
Definition WLSModel_whiten_columns (X c : ndarray) (v : ndarray) (k : nat)
  : result ndarray :=
  foldl (fun acc i => v <- acc ;;
                      col <- getcol X i ;;
                      q <- N_div col c ;;
                      setcol v i q)
        (Ok v) (iota 0 k).

(** [WLSModel.whiten]; an array of another rank falls through both tests
    and the method returns [None]. *)
Definition WLSModel_whiten (X : value) : M value :=
  match X with
  | PyNone => lift (Raise AttributeError)
  | PyArr X =>
      match ndim X with
      | 1%N =>
          w <~ trait weights ;;
          v <~ new (w <- array w ;; N_div X (N_sqrt w)) ;;
          ret (PyArr v)
      | 2%N =>
          w <~ trait weights ;;
          c <~ lift (w <- array w ;; Ok (N_sqrt w)) ;;
          v <~ new (m <- shape_at X 0 ;;
                    k <- shape_at X 1 ;;
                    WLSModel_whiten_columns X c (N_zeros2 F m k) k) ;;
          ret (PyArr v)
      | _ => ret PyNone
      end
  end.

(** [self.whiten(X)] *)
Definition whiten (X : value) : M value :=
  c <~ trait cls ;;
  match c with
  | OLSModel => OLSModel_whiten X
  | ARModel => ARModel_whiten X
  | WLSModel => WLSModel_whiten X
  end.

(** [OLSModel._design_changed] *)
Definition OLSModel__design_changed : M unit :=
  d <~ trait design ;;
  setattr_wdesign d.

(** [ARModel._design_changed], which [WLSModel] inherits. *)
Definition ARModel__design_changed : M unit :=
  d <~ trait design ;;
  w <~ whiten d ;;
  setattr_wdesign w.

(** [self._design_changed()] *)
Definition _design_changed : M unit :=
  c <~ trait cls ;;
  match c with
  | OLSModel => OLSModel__design_changed
  | ARModel | WLSModel => ARModel__design_changed
  end.

(** [ARModel._rho_changed] *)
Definition ARModel__rho_changed : M unit := _design_changed.

(** [WLSModel._weights_changed] *)
Definition WLSModel__weights_changed : M unit := _design_changed.

(** Modelled from the spec: assigning a trait calls its change handler,
    when the class of the receiver has one.  An array that is assigned is
    taken to differ from what the trait holds; a number is compared with
    it, and the handler runs when it differs. *)
Definition setattr_design (d : value) : M unit :=
  assign (set_design d) ;;; _design_changed.

Definition setattr_rho (r : F) : M unit :=
  old <~ trait rho ;;
  assign (set_rho r) ;;;
  c <~ trait cls ;;
  match c with
  | OLSModel => ret tt
  | ARModel | WLSModel => if r == old then ret tt else ARModel__rho_changed
  end.

Definition setattr_weights (w : value) : M unit :=
  assign (set_weights w) ;;;
  c <~ trait cls ;;
  match c with
  | WLSModel => WLSModel__weights_changed
  | OLSModel | ARModel => ret tt
  end.

(** [OLSModel.initialize] *)
Definition OLSModel_initialize (d : value) : M unit := setattr_design d.

(** [OLSModel.df_resid] *)
Definition OLSModel_df_resid : M int := getattr _df_resid.

(** A bound method of the model object: calling it runs the method on the
    model as it is in the store at the time of the call. *)
Inductive bound_method : Type := BoundMethod (f : M int).

Definition call (b : bound_method) : M int := let: BoundMethod f := b in f.

(** *** Fit results *)

(** The attributes of a [RegressionModelResults] object, named after the
    variable [lfit] of [fit] where a model attribute has the same name;
    each exists once it has been assigned. *)
Record RegressionModelResults : Type := Results {
  lfit_beta : option obj;
  lfit_normalized_cov_beta : option obj;
  lfit_df_resid : option bound_method;
  lfit_resid : option obj;
  lfit_scale : option obj;
  lfit_Z : option value;
  _sd : option ndarray;
  Ssq : option ndarray
}.

(** [RegressionModelResults()] *)
Definition new_results : RegressionModelResults :=
  Results None None None None None None None None.

(** [OLSModel.fit] *)
Definition OLSModel_fit (Y : value) : M RegressionModelResults :=
  cb <~ trait calc_beta ;;
  (if cb is None then OLSModel_setup else ret tt) ;;;
  Z <~ whiten Y ;;
  cb <~ getattr calc_beta ;;
  beta <~ new (Z <- array Z ;; N_dot cb Z) ;;
  ncb <~ getattr normalized_cov_beta ;;
  let df_resid := BoundMethod OLSModel_df_resid in
  w <~ getattr wdesign ;;
  resid <~ new (Z <- array Z ;;
                w <- array w ;;
                fitted <- N_dot w beta ;;
                N_sub Z fitted) ;;
  ssr <~ lift (N_add_reduce (N_square resid)) ;;
  df <~ call df_resid ;;
  scale <~ new (N_div ssr (py_int F df)) ;;
  ret (Results (Some beta) (Some ncb) (Some df_resid) (Some resid)
               (Some scale) (Some Z) None None).

(** *** Statistics of a fit *)

(** The names the methods of [RegressionModelResults] read without
    binding them: they are looked up in the namespace of the module. *)
Record globals : Type := Globals {
  global_Y : option ndarray;
  global__beta : option ndarray
}.

(** The namespace of [regression.py] as the file defines it: it binds
    neither [Y] nor [_beta]. *)
Definition module_globals : globals := Globals None None.

(** A global name; a [NameError] when the module does not bind it. *)
Definition global (name : option ndarray) : result ndarray :=
  match name with Some a => Ok a | None => Raise NameError end.

(** [self.name] on a fit result. *)
Definition attr A (name : option A) : result A :=
  match name with Some a => Ok a | None => Raise AttributeError end.

Definition set__sd v (r : RegressionModelResults) :=
  Results (lfit_beta r) (lfit_normalized_cov_beta r) (lfit_df_resid r)
          (lfit_resid r) (lfit_scale r) (lfit_Z r) v (Ssq r).
Definition set_Ssq v (r : RegressionModelResults) :=
  Results (lfit_beta r) (lfit_normalized_cov_beta r) (lfit_df_resid r)
          (lfit_resid r) (lfit_scale r) (lfit_Z r) (_sd r) v.

(** [a[i]] *)
Definition getitem (a : ndarray) (i : nat) : result ndarray :=
  match a with
  | Arr0 _ => Raise IndexError
  | Arr1 n v => if (i < n)%N then Ok (Arr0 (at_ v 0 i)) else Raise IndexError
  | Arr2 m n A =>
      if (i < m)%N then Ok (Arr1 (\row_(j < n) at_ A i j)) else Raise IndexError
  end.

(** [RegressionModelResults.sd]; the object is returned with [_sd] set. *)
Definition RegressionModelResults_sd (r : RegressionModelResults)
  : result RegressionModelResults :=
  if lfit_resid r is None then Raise ValueError
  else
    scale <- attr (lfit_scale r) ;;
    Ok (set__sd (Some (N_sqrt scale)) r).

(** [RegressionModelResults.t].  Past the standard deviation the method
    reads the unbound name [_beta]; were it bound, the method [self.sqrt],
    which the class does not have, would be looked up for the first
    coefficient. *)
Definition RegressionModelResults_t (g : globals) (r : RegressionModelResults)
    (column : option nat) : result (ndarray * RegressionModelResults) :=
  r <- (if _sd r is None then RegressionModelResults_sd r else Ok r) ;;
  match column with
  | None =>
      _beta <- global (global__beta g) ;;
      let _t := amap (fun=> 0) _beta in
      beta <- attr (lfit_beta r) ;;
      n <- shape_at beta 0 ;;
      if n is 0%N then Ok (_t, r)
      else
        _ <- getitem _beta 0 ;;
        _ <- attr (_sd r) ;;
        Raise AttributeError
  | Some i =>
      _beta <- global (global__beta g) ;;
      _ <- getitem _beta i ;;
      _ <- attr (_sd r) ;;
      Raise AttributeError
  end.

(** [RegressionModelResults.Rsq]; the object is returned with [Ssq] set. *)
Definition RegressionModelResults_Rsq (g : globals) (r : RegressionModelResults)
  : result (ndarray * RegressionModelResults) :=
  Y <- global (global_Y g) ;;
  let Ssq := N_square (N_std Y) in
  let r := set_Ssq (Some Ssq) r in
  scale <- attr (lfit_scale r) ;;
  Rsq <- N_div scale Ssq ;;
  Ok (Rsq, r).

(** [RegressionModelResults.cov_beta]; with neither [column] nor [matrix]
    the method returns [None]. *)
Definition RegressionModelResults_cov_beta (r : RegressionModelResults)
    (matrix : option ndarray) (column : option nat) (scale : option ndarray)
    (other : option ndarray) : result (option ndarray) :=
  scale <- (if scale is Some s then Ok s
            else s <- attr (lfit_scale r) ;; Ok (val s)) ;;
  match column, matrix with
  | Some c, _ =>
      ncb <- attr (lfit_normalized_cov_beta r) ;;
      row <- getitem ncb c ;;
      x <- getitem row c ;;
      v <- N_mul x scale ;;
      Ok (Some v)
  | None, Some matrix =>
      let other := if other is Some o then o else matrix in
      ncb <- attr (lfit_normalized_cov_beta r) ;;
      inner <- N_dot ncb (N_transpose other) ;;
      tmp <- N_dot matrix inner ;;
      v <- N_mul tmp scale ;;
      Ok (Some v)
  | None, None => Ok None
  end.

(** The container of the results of a contrast. *)
Record ContrastResults : Type := Contrast { contrast_F : option ndarray }.

(** [RegressionModelResults.Fcontrast] *)
Definition RegressionModelResults_Fcontrast (r : RegressionModelResults)
    (matrix : ndarray) (invcov : option ndarray) : result ContrastResults :=
  beta <- attr (lfit_beta r) ;;
  cbeta <- N_dot matrix beta ;;
  q <- shape_at matrix 0 ;;
  invcov <- (if invcov is Some i then Ok i
             else
               c <- RegressionModelResults_cov_beta r (Some matrix) None
                      (Some (scalar 1)) None ;;
               c <- (if c is Some c then Ok c else Raise TypeError) ;;
               L_inv c) ;;
  ic <- N_dot invcov cbeta ;;
  prod <- N_mul ic cbeta ;;
  num <- N_add_reduce prod ;;
  scale <- attr (lfit_scale r) ;;
  den <- N_mul (py_int F q) scale ;;
  f <- N_mul num (recipr den) ;;
  Ok (Contrast (Some f)).

(** ** Contrasts *)

(** [n, p = D.shape] *)
Definition shape2 (a : ndarray) : result (nat * nat) :=
  match a with
  | Arr2 m n _ => Ok (m, n)
  | _ => Raise ValueError
  end.

(** [contrastfromcols] *)
Definition contrastfromcols (T D : ndarray) (pinv : option ndarray)
  : result ndarray :=
  np <- shape2 D ;;
  let: (n, p) := np in
  t0 <- shape_at T 0 ;;
  mismatched <- (if t0 != n then t1 <- shape_at T 1 ;; Ok (t1 != p)
                 else Ok false) ;;
  if mismatched then Raise ValueError
  else
    pinv <- (if pinv is Some P then Ok P else L_pinv D) ;;
    t0 <- shape_at T 0 ;;
    C <- (if t0 == n then PT <- N_dot pinv T ;; Ok (N_transpose PT)
          else Ok T) ;;
    Tp <- N_dot D (N_transpose C) ;;
    k <- shape_at Tp 1 ;;
    C <- (if rank Tp != k then
            Tp <- fullrank Tp ;;
            PT <- N_dot pinv Tp ;;
            Ok (N_transpose PT)
          else Ok C) ;;
    Ok (N_squeeze C).

(** [isestimable] *)
Definition isestimable (C D : ndarray) : result bool :=
  new <- N_concatenate C D ;;
  if rank new != rank D then Ok false else Ok true.

(** ** The other methods of a fit result *)

(** [RegressionModelResults.predict] *)
Definition RegressionModelResults_predict (r : RegressionModelResults)
    (design : ndarray) : result ndarray :=
  beta <- attr (lfit_beta r) ;;
  N_dot design beta.

(** [RegressionModelResults.norm_resid].  Past the standard deviation the
    method reads [_sd] as a name of the module, [gsd] here, and not as the
    attribute; were it bound, the attribute [df], which nothing in the
    module assigns, would be read after [self._sd]. *)
Definition RegressionModelResults_norm_resid (gsd : option ndarray)
    (r : RegressionModelResults) : result (ndarray * RegressionModelResults) :=
  if lfit_resid r is None then Raise ValueError
  else
    r <- (if _sd r is None then RegressionModelResults_sd r else Ok r) ;;
    _ <- global gsd ;;
    _ <- attr (_sd r) ;;
    Raise AttributeError.

(** The attributes [Tcontrast] assigns on the [ContrastResults] object it
    returns; each exists once it has been assigned. *)
Record TcontrastResults : Type := TContrast {
  contrast_effect : option ndarray;
  contrast_sd : option ndarray;
  contrast_t : option ndarray
}.

(** [RegressionModelResults.Tcontrast]; the fit result is returned with
    [_sd] set.  The parameter [scale] of the method is not used. *)
Definition RegressionModelResults_Tcontrast (r : RegressionModelResults)
    (matrix : ndarray) (t sd : bool)
  : result (TcontrastResults * RegressionModelResults) :=
  r <- (if _sd r is None then RegressionModelResults_sd r else Ok r) ;;
  beta <- attr (lfit_beta r) ;;
  effect <- N_dot matrix beta ;;
  results_sd <- (if sd then
                   c <- RegressionModelResults_cov_beta r (Some matrix) None
                          None None ;;
                   c <- (if c is Some c then Ok c else Raise TypeError) ;;
                   s <- attr (_sd r) ;;
                   x <- N_mul (N_sqrt c) s ;;
                   Ok (Some x)
                 else Ok None) ;;
  results_t <- (if t then
                  s <- attr results_sd ;;
                  x <- N_mul effect (recipr s) ;;
                  Ok (Some x)
                else Ok None) ;;
  Ok (TContrast (Some effect) results_sd results_t, r).

End Regression.

(** ** Specifications *)

Section Specification.

Variable F : archiRealFieldType.
Context {NF : nonfinite F}.
Variable Nsqrt : F -> F.

Notation ndarray := (ndarray F).
Notation obj := (obj F).
Notation model := (model F).

(** [c * a] for a number [c]. *)
Definition scal (c : F) (a : ndarray) : ndarray :=
  match a with
  | Arr0 x => Arr0 (c * x)
  | Arr1 _ v => Arr1 (c *: v)
  | Arr2 _ _ A => Arr2 (c *: A)
  end.

(** The residual degrees of freedom [setup] computes for the whitened
    design [W]. *)
Definition df_of m n (W : 'M[F]_(m, n)) : int := (m : int) - (\rank W : int).

(** The attributes [setup] assigns for the whitened design [W], the first
    new array receiving the identity [k]. *)
Definition installed m n (W : 'M[F]_(m, n)) (k : nat) (s : model) : model :=
  set__df_resid (Some (df_of W))
    (set_normalized_cov_beta (Some (Obj k.+1 (Arr2 (pinv W *m (pinv W)^T))))
       (set_calc_beta (Some (Obj k (Arr2 (pinv W)))) s)).

(** The fit of a whitened response [Z] against the whitened design [W] with
    [B] for [calc_beta] and [df] residual degrees of freedom. *)
Definition beta_of n p k (B : 'M[F]_(p, n)) (Z : 'M[F]_(n, k)) := B *m Z.
Definition resid_of n p k (W : 'M[F]_(n, p)) B (Z : 'M[F]_(n, k)) :=
  Z - W *m beta_of B Z.
Definition scale_of n p k (W : 'M[F]_(n, p)) B (Z : 'M[F]_(n, k)) (df : int)
  : 'rV[F]_k :=
  \row_j divide (\sum_i (resid_of W B Z) i j ^+ 2) df%:~R.

(** The AR(1) transform of the claim, on a matrix with at least one row. *)
Definition ar1 (r : F) m k (A : 'M[F]_(m.+1, k)) : 'M[F]_(m.+1, k) :=
  \matrix_(i, j) if i == 0 :> nat then A i j
                 else (A i j - r * A (inord i.-1) j) / Nsqrt (1 - r ^+ 2).

(** The weighting transform of the claim: row [i] is divided by the square
    root of weight [i]. *)
Definition weighted m k (w : 'rV[F]_m) (A : 'M[F]_(m, k)) : 'M[F]_(m, k) :=
  \matrix_(i, j) (A i j / Nsqrt (w 0 i)).

(** The contrast [contrastfromcols] returns for the design [D] once the
    candidate contrast [C] is known. *)
Definition contrast_of n p q (D : 'M[F]_(n, p)) (C : 'M[F]_(q, p)) : ndarray :=
  let Tp := D *m C^T in
  if \rank Tp != q
  then N_squeeze (Arr2 (pinv D *m colsel Tp (pivots Tp))^T)
  else N_squeeze (Arr2 C).

(** The quantities [setup] stores agree with the whitened design. *)
Inductive setup_consistent (s : model) : Prop :=
  SetupConsistent m n (W : 'M[F]_(m, n)) (B : 'M[F]_(n, m)) (w cb ncb : obj) of
    wdesign s = Some (PyArr w) & val w = Arr2 W
  & calc_beta s = Some cb & val cb = Arr2 B & is_pinv W B
  & normalized_cov_beta s = Some ncb & val ncb = Arr2 (B *m B^T)
  & _df_resid s = Some ((m : int) - round_half_even (\tr (B *m W))).

(** A computation that leaves the attributes of the model as they are. *)
Definition frame A (c : M F A) : Prop :=
  forall st a st', c st = Ok (a, st') -> self st' = self st.

End Specification.

(** ** Literals and examples *)

Section Literals.

Variable F : archiRealFieldType.

(** [N.array(rows)] for a list of rows. *)
Definition array2 (rows : seq (seq F)) : ndarray F :=
  Arr2 (\matrix_(i < size rows, j < size (head [::] rows))
          nth 0 (nth [::] rows i) j).

(** [N.array(xs)] for a list of numbers. *)
Definition array1 (xs : seq F) : ndarray F :=
  Arr1 (\row_(j < size xs) nth 0 xs j).

End Literals.

(** The examples run on the rationals; no quotient whose value they
    state has a divisor that is 0. *)
#[export] Instance nonfinite_rat : nonfinite rat := Nonfinite (fun=> 0).

(** A square root on the rationals: exact on the squares, and rounded
    down on the numerator and the denominator otherwise. *)
Definition sqrtq (x : rat) : rat :=
  (Nat.sqrt `|numq x|)%:R / (Nat.sqrt `|denq x|)%:R.

(** The scenario of the specification: two groups of two observations,
    with the indicators of the groups for design. *)
Definition scenario_D : seq (seq rat) :=
  [:: [:: 1; 0]; [:: 1; 0]; [:: 0; 1]; [:: 0; 1]].
Definition scenario_Y : seq rat := [:: 1; 3%:R; 2%:R; 6%:R].

Notation D0 := (\matrix_(i < 4, j < 2) nth 0 (nth [::] scenario_D i) j : 'M[rat]_(4, 2)).
Notation Y0 := (\row_(j < 4) nth 0 scenario_Y j : 'rV[rat]_4).

(** The arrays of the scenario as objects, and a model of each class that
    no design has been fitted with yet. *)
Definition scenario_design : obj rat := Obj 0 (array2 scenario_D).
Definition scenario_response : obj rat := Obj 1 (array1 scenario_Y).
Definition scenario_model : store rat := Store (new_model rat OLSModel) 2.

Definition scenario_ar_model : store rat :=
  Store (Model ARModel (PyArr scenario_design) 0 (PyNone rat)
               None None None None) 2.

Definition scenario_weights : obj rat := Obj 2 (Arr1 (const_mx 1 : 'rV[rat]_4)).

Definition scenario_wls_model : store rat :=
  Store (Model WLSModel (PyArr scenario_design) 0 (PyArr scenario_weights)
               None None None None) 3.

(** The contrast between the two groups, and the result the fit of the
    scenario returns. *)
Definition scenario_contrast : ndarray rat := array2 [:: [:: 1; -1]].

Definition scenario_results : RegressionModelResults rat :=
  Results (Some (Obj 3 (array1 [:: 2%:R; 4%:R])))
          (Some (Obj 4 (array2 [:: [:: 2%:R^-1; 0]; [:: 0; 2%:R^-1]])))
          (Some (BoundMethod (@OLSModel_df_resid rat)))
          (Some (Obj 5 (array1 [:: -1; 1; - 2%:R; 2%:R])))
          (Some (Obj 6 (Arr0 5%:R)))
          (Some (PyArr scenario_response)) None None.

(** One observation and one parameter: a design, a design of another
    rank that replaces it after the fit, and a response. *)
Definition alias_design1 : obj rat := Obj 0 (Arr2 (1%:M : 'M[rat]_1)).
Definition alias_design2 : obj rat := Obj 1 (Arr2 (0 : 'M[rat]_1)).
Definition alias_response : obj rat := Obj 2 (Arr2 (1%:M : 'M[rat]_1)).
Definition alias_model : store rat := Store (new_model rat OLSModel) 3.

(** The response of the scenario as a matrix of one column, a response
    the design reproduces exactly, a response with a row too few, and an
    array without rows. *)
Definition scenario_column : obj rat := Obj 1 (Arr2 Y0^T).
Definition scenario_exact : obj rat :=
  Obj 1 (Arr2 (D0 *m (const_mx 1 : 'M[rat]_(2, 1)))).
Definition scenario_short : obj rat := Obj 1 (array1 [:: 1; 3%:R; 2%:R]).
Definition scenario_empty : obj rat := Obj 1 (Arr2 (0 : 'M[rat]_(0, 2))).

(** The coefficients and the covariance of the scenario, and the contrast
    between the two groups as a matrix and as a vector. *)
Notation B0 := (\row_(j < 2) nth 0 [:: 2%:R; 4%:R] j : 'rV[rat]_2).
Notation C0 :=
  (\matrix_(i < 2, j < 2) nth 0 (nth [::] [:: [:: 2%:R^-1; 0]; [:: 0; 2%:R^-1]] i) j
   : 'M[rat]_2).
Notation M0 := (\matrix_(i < 1, j < 2) nth 0 (nth [::] [:: [:: 1; -1]] i) j
                : 'M[rat]_(1, 2)).
Notation m0 := (\row_(j < 2) nth 0 [:: 1; -1] j : 'rV[rat]_2).

(** An AR(1) model with the correlation 3/5, for which the square root of
    [1 - rho^2] is 4/5; weights with the square roots 1, 2, 3 and 4 and a
    WLS model with them; a single weight, with the square root 2, and a
    WLS model with it. *)
Definition scenario_ar35_model : store rat :=
  Store (Model ARModel (PyArr scenario_design) (3%:R / 5%:R) (PyNone rat)
               None None None None) 2.

Definition scenario_squares : obj rat :=
  Obj 2 (array1 [:: 1; 4%:R; 9%:R; 16%:R]).

Definition scenario_squares_model : store rat :=
  Store (Model WLSModel (PyArr scenario_design) 0 (PyArr scenario_squares)
               None None None None) 3.

Definition scenario_four : obj rat := Obj 2 (array1 [:: 4%:R]).

Definition scenario_four_model : store rat :=
  Store (Model WLSModel (PyArr scenario_design) 0 (PyArr scenario_four)
               None None None None) 3.

Notation W0 := (\row_(j < 4) nth 0 [:: 1; 4%:R; 9%:R; 16%:R] j : 'rV[rat]_4).

(** ** Proofs *)

Arguments N_dot : simpl never.
Arguments N_sub : simpl never.
Arguments N_mul : simpl never.
Arguments N_div : simpl never.
Arguments N_add : simpl never.
Arguments recast : simpl never.
Arguments bdim : simpl never.
Arguments bidx : simpl never.
Arguments at_ : simpl never.
Arguments broadcast : simpl never.
Arguments N_concatenate : simpl never.
Arguments N_squeeze : simpl never.
Arguments WLSModel_whiten : simpl never.
Arguments ARModel_whiten : simpl never.
Arguments round_half_even : simpl never.

Section ArrayTheory.

Variable F : archiRealFieldType.
Notation ndarray := (ndarray F).

Lemma at_ord m n (A : 'M[F]_(m, n)) (i : 'I_m) (j : 'I_n) : at_ A i j = A i j.
Proof. by rewrite /at_ !valK. Qed.

Lemma recast_id m n (A : 'M[F]_(m, n)) : recast m n A = Some A.
Proof.
rewrite /recast !eqxx /=; congr Some.
by apply/matrixP=> i j; rewrite mxE at_ord.
Qed.

Lemma recast_neq_col m n m' n' (A : 'M[F]_(m, n)) :
  n != n' -> recast m' n' A = None.
Proof. by rewrite /recast => /negPf->; rewrite andbF. Qed.

Lemma N_dot22 m n k (A : 'M[F]_(m, n)) (B : 'M[F]_(n, k)) :
  N_dot (Arr2 A) (Arr2 B) = Ok (Arr2 (A *m B)).
Proof. by rewrite /N_dot recast_id. Qed.

Lemma N_dot21 m n (A : 'M[F]_(m, n)) (v : 'rV[F]_n) :
  N_dot (Arr2 A) (Arr1 v) = Ok (Arr1 (A *m v^T)^T).
Proof. by rewrite /N_dot recast_id. Qed.

Lemma bdimxx n : bdim n n = Some n.
Proof. by rewrite /bdim eqxx. Qed.

Lemma bidx_ord n (i : 'I_n) : bidx n i = i.
Proof. by rewrite /bidx; case: eqP => // n1; move: i; rewrite n1 => i; rewrite ord1. Qed.

Lemma broadcast22 op m n (A B : 'M[F]_(m, n)) :
  broadcast op (Arr2 A) (Arr2 B) = Ok (Arr2 (map2_mx op A B)).
Proof.
rewrite /broadcast !bdimxx; congr (Ok (Arr2 _)).
by apply/matrixP=> i j; rewrite !mxE !bidx_ord !at_ord.
Qed.

Lemma broadcast11 op n (v w : 'rV[F]_n) :
  broadcast op (Arr1 v) (Arr1 w) = Ok (Arr1 (map2_mx op v w)).
Proof.
rewrite /broadcast !bdimxx; congr (Ok (Arr1 _)).
by apply/matrixP=> i j; rewrite !mxE !bidx_ord ord1 !(at_ord _ 0).
Qed.

(** *** The pseudo-inverse *)

Lemma is_pinv_uniq m n (A : 'M[F]_(m, n)) B C :
  is_pinv A B -> is_pinv A C -> B = C.
Proof.
case=> [b1 b2 b3 b4] [c1 c2 c3 c4].
have eAB : A *m B = A *m C.
  rewrite -b3 -{1}c1 -!mulmxA (mulmxA A C) trmx_mul b3 c3.
  by rewrite !mulmxA b1.
have eBA : B *m A = C *m A.
  rewrite -b4 -{1}c1 !mulmxA -(mulmxA (B *m A)) trmx_mul b4 c4.
  by rewrite -!mulmxA (mulmxA A) b1.
by rewrite -b2 -mulmxA eAB mulmxA eBA c2.
Qed.

Lemma gram_unit r n (A : 'M[F]_(r, n)) : row_free A -> A *m A^T \in unitmx.
Proof.
move=> fA; rewrite -row_free_unit -kermx_eq0; apply/rowV0P=> v /sub_kermxP vG.
have: v *m A *m (v *m A)^T = 0 by rewrite trmx_mul mulmxA -(mulmxA v) vG mul0mx.
move/matrixP/(_ 0 0); rewrite !mxE => /eqP.
rewrite psumr_eq0 => [i _|]; first by rewrite [_^T _ _]mxE -expr2 sqr_ge0.
move/allP=> z; suff vA0 : v *m A = 0.
  by apply: (row_free_inj fA); rewrite vA0 mul0mx.
apply/matrixP=> i j; rewrite ord1 [RHS]mxE; apply/eqP.
by have:= z j (mem_index_enum _); rewrite /= [_^T _ _]mxE mulf_eq0 orbb.
Qed.

Lemma is_pinv_factor m n r (C : 'M[F]_(m, r)) (R : 'M[F]_(r, n)) :
  row_full C -> row_free R ->
  is_pinv (C *m R) (R^T *m invmx (R *m R^T) *m (invmx (C^T *m C) *m C^T)).
Proof.
move=> fC fR.
have uR : R *m R^T \in unitmx by apply: gram_unit.
have uC : C^T *m C \in unitmx.
  by rewrite -{2}[C]trmxK; apply: gram_unit; rewrite /row_free mxrank_tr.
have sR : (invmx (R *m R^T))^T = invmx (R *m R^T).
  by rewrite trmx_inv trmx_mul trmxK.
have sC : (invmx (C^T *m C))^T = invmx (C^T *m C).
  by rewrite trmx_inv trmx_mul trmxK.
have AP : C *m R *m (R^T *m invmx (R *m R^T) *m (invmx (C^T *m C) *m C^T))
          = C *m invmx (C^T *m C) *m C^T.
  by rewrite !mulmxA -(mulmxA C R) -(mulmxA C (R *m R^T)) mulmxV // mulmx1.
have PA : (R^T *m invmx (R *m R^T) *m (invmx (C^T *m C) *m C^T)) *m (C *m R)
          = R^T *m invmx (R *m R^T) *m R.
  by rewrite -!mulmxA (mulmxA C^T) (mulmxA (invmx _) (C^T *m C)) mulVmx //
             mul1mx.
split.
- by rewrite AP -!mulmxA (mulmxA C^T) (mulmxA (invmx _)) mulVmx // mul1mx.
- by rewrite PA -!mulmxA (mulmxA R) (mulmxA (R *m R^T)) mulmxV // mul1mx.
- by rewrite AP !trmx_mul trmxK sC mulmxA.
- by rewrite PA !trmx_mul trmxK sR mulmxA.
Qed.

Lemma pinvP m n (A : 'M[F]_(m, n)) : is_pinv A (pinv A).
Proof.
have := is_pinv_factor (col_base_full A) (row_base_free A).
by rewrite mulmx_base.
Qed.

Lemma pinv_eq m n (A : 'M[F]_(m, n)) B : is_pinv A B -> pinv A = B.
Proof. by move=> pB; apply: is_pinv_uniq (pinvP A) pB. Qed.

Lemma mxtrace_pinv_factor m n r (C : 'M[F]_(m, r)) (R : 'M[F]_(r, n)) :
  row_full C -> row_free R ->
  \tr (R^T *m invmx (R *m R^T) *m (invmx (C^T *m C) *m C^T) *m (C *m R))
  = r%:R.
Proof.
move=> fC fR.
have uR : R *m R^T \in unitmx by apply: gram_unit.
have uC : C^T *m C \in unitmx.
  by rewrite -{2}[C]trmxK; apply: gram_unit; rewrite /row_free mxrank_tr.
rewrite -!mulmxA (mulmxA C^T) (mulmxA (invmx _) (C^T *m C)) mulVmx // mul1mx.
by rewrite mxtrace_mulC -mulmxA mulVmx // mxtrace1.
Qed.

(** The trace of the projector [pinv A *m A] is the rank of [A]. *)
Lemma mxtrace_pinv m n (A : 'M[F]_(m, n)) :
  \tr (pinv A *m A) = (\rank A)%:R.
Proof.
have := mxtrace_pinv_factor (col_base_full A) (row_base_free A).
by rewrite mulmx_base.
Qed.

End ArrayTheory.

Section ModelTheory.

Variable F : archiRealFieldType.
Context {NF : nonfinite F}.
Variable Nsqrt : F -> F.
Notation ndarray := (ndarray F).

Lemma round_half_even_int (k : int) : round_half_even (k%:~R : F) = k.
Proof.
rewrite /round_half_even intrKfloor subrr.
by rewrite invr_gt0 ltr0n.
Qed.

Lemma sum_diagonal n (P : 'M[F]_n) :
  \sum_(j < minn n n) at_ P j j = \tr P.
Proof.
rewrite -(big_mkord xpredT (fun j => at_ P j j)) minnn big_mkord.
by apply: eq_bigr => j _; rewrite at_ord.
Qed.

Lemma setup_df m n (W : 'M[F]_(m, n)) :
  (cb_w <- N_dot (Arr2 (pinv W)) (Arr2 W) ;;
   dg <- N_diagonal cb_w ;;
   tr <- N_add_reduce dg ;;
   x <- N_sub (py_int F m) tr ;;
   int_of (N_around x)) = Ok (df_of W).
Proof.
rewrite N_dot22 /= /N_sub /=.
have -> : \sum_j (\row_(i < minn n n) at_ (pinv W *m W) i i) 0 j
          = (\rank W)%:R.
  rewrite -mxtrace_pinv -sum_diagonal.
  by apply: eq_bigr => j _; rewrite mxE.
have -> : (m%:~R - (\rank W)%:R : F) = (df_of W)%:~R.
  by rewrite /df_of rmorphB /= -!pmulrn.
by rewrite round_half_even_int intrKfloor intrKceil; case: ifP.
Qed.

Notation obj := (obj F).
Notation model := (model F).
Notation store := (store F).

Lemma OLSModel_setup_ok (st : store) (w : obj) m n (W : 'M[F]_(m, n)) :
  wdesign (self st) = Some (PyArr w) -> val w = Arr2 W ->
  OLSModel_setup st
  = Ok (tt, Store (installed W (next_id st) (self st)) (next_id st).+2).
Proof.
case: st => s k /= ws wv.
rewrite /OLSModel_setup /bind /getattr /= ws /= wv /= N_dot22 /= ws /= wv /=.
by rewrite /lift setup_df.
Qed.

Lemma setattr_wdesign_ok (st : store) (w : obj) m n (W : 'M[F]_(m, n)) :
  val w = Arr2 W ->
  setattr_wdesign (PyArr w) st
  = Ok (tt, Store (installed W (next_id st)
                     (set_wdesign (Some (PyArr w)) (self st)))
                  (next_id st).+2).
Proof.
move=> wv; rewrite /setattr_wdesign /bind /assign /OLSModel__wdesign_changed.
by rewrite (@OLSModel_setup_ok _ w _ _ W).
Qed.

Lemma setattr_design_OLS (st : store) (d : obj) m n (D : 'M[F]_(m, n)) :
  cls (self st) = OLSModel -> val d = Arr2 D ->
  setattr_design Nsqrt (PyArr d) st
  = Ok (tt, Store (installed D (next_id st)
                     (set_wdesign (Some (PyArr d))
                        (set_design (PyArr d) (self st))))
                  (next_id st).+2).
Proof.
case: st => s k /= ols dv.
rewrite /setattr_design /bind /assign /_design_changed /bind /trait /= ols.
by rewrite /OLSModel__design_changed /bind /trait /= (setattr_wdesign_ok _ dv).
Qed.

Lemma map2_mx_sub m n (A B : 'M[F]_(m, n)) :
  map2_mx (fun x y => x - y) A B = A - B.
Proof. by apply/matrixP=> i j; rewrite !mxE. Qed.

Lemma N_sub22 m n (A B : 'M[F]_(m, n)) :
  N_sub (Arr2 A) (Arr2 B) = Ok (Arr2 (A - B)).
Proof. by rewrite /N_sub broadcast22 map2_mx_sub. Qed.

Lemma N_sub11 n (v w : 'rV[F]_n) :
  N_sub (Arr1 v) (Arr1 w) = Ok (Arr1 (v - w)).
Proof. by rewrite /N_sub broadcast11 map2_mx_sub. Qed.

Lemma fit_matrix (st : store) (y w cb ncb : obj) (df : int) n p k
    (B : 'M[F]_(p, n)) (W : 'M[F]_(n, p)) (Y : 'M[F]_(n, k)) :
  cls (self st) = OLSModel ->
  calc_beta (self st) = Some cb -> val cb = Arr2 B ->
  normalized_cov_beta (self st) = Some ncb ->
  wdesign (self st) = Some (PyArr w) -> val w = Arr2 W ->
  _df_resid (self st) = Some df ->
  val y = Arr2 Y ->
  OLSModel_fit Nsqrt (PyArr y) st
  = Ok (Results (Some (Obj (next_id st) (Arr2 (beta_of B Y))))
                (Some ncb) (Some (BoundMethod (@OLSModel_df_resid F)))
                (Some (Obj (next_id st).+1 (Arr2 (resid_of W B Y))))
                (Some (Obj (next_id st).+2 (Arr1 (scale_of W B Y df))))
                (Some (PyArr y)) None None,
        Store (self st) (next_id st).+3).
Proof.
case: st => s i /= ols cbs cbE ncbs ws wE dfs yE.
rewrite /OLSModel_fit /bind /trait /= cbs /ret /whiten /bind /trait /= ols.
rewrite /OLSModel_whiten /ret /getattr /= cbs /= cbE yE.
rewrite N_dot22 /= ncbs ws /= wE N_dot22 /= N_sub22 /=
  /lift /= /OLSModel_df_resid /getattr /= dfs.
rewrite /N_div /=.
congr (Ok (Results _ _ _ _ (Some (Obj _ (Arr1 _))) _ _ _, _)).
by apply/matrixP=> a b; rewrite !mxE; congr (divide _ _); apply: eq_bigr => c _;
   rewrite !mxE.
Qed.

Lemma fit_vector (st : store) (y w cb ncb : obj) (df : int) n p
    (B : 'M[F]_(p, n)) (W : 'M[F]_(n, p)) (Y : 'rV[F]_n) :
  cls (self st) = OLSModel ->
  calc_beta (self st) = Some cb -> val cb = Arr2 B ->
  normalized_cov_beta (self st) = Some ncb ->
  wdesign (self st) = Some (PyArr w) -> val w = Arr2 W ->
  _df_resid (self st) = Some df ->
  val y = Arr1 Y ->
  OLSModel_fit Nsqrt (PyArr y) st
  = Ok (Results (Some (Obj (next_id st) (Arr1 (beta_of B Y^T)^T)))
                (Some ncb) (Some (BoundMethod (@OLSModel_df_resid F)))
                (Some (Obj (next_id st).+1 (Arr1 (resid_of W B Y^T)^T)))
                (Some (Obj (next_id st).+2 (Arr0 (scale_of W B Y^T df 0 0))))
                (Some (PyArr y)) None None,
        Store (self st) (next_id st).+3).
Proof.
case: st => s i /= ols cbs cbE ncbs ws wE dfs yE.
rewrite /OLSModel_fit /bind /trait /= cbs /ret /whiten /bind /trait /= ols.
rewrite /OLSModel_whiten /ret /getattr /= cbs /= cbE yE.
rewrite N_dot21 /= ncbs ws /= wE N_dot21 /= N_sub11 /=
  /lift /= /OLSModel_df_resid /getattr /= dfs.
rewrite /N_div /= trmxK.
have -> : Y - (W *m (B *m Y^T))^T = (resid_of W B Y^T)^T.
  by rewrite /resid_of /beta_of linearB /= trmxK.
congr (Ok (Results _ _ _ _ (Some (Obj _ (Arr0 _))) _ _ _, _)).
by rewrite !mxE; congr (divide _ _); apply: eq_bigr => c _; rewrite !mxE.
Qed.

End ModelTheory.

Section WhitenTheory.

Variable F : archiRealFieldType.
Context {NF : nonfinite F}.
Variable Nsqrt : F -> F.
Notation ndarray := (ndarray F).
Notation obj := (obj F).
Notation model := (model F).
Notation store := (store F).

Lemma N_concatenate22 m1 m2 n (A : 'M[F]_(m1, n)) (B : 'M[F]_(m2, n)) :
  N_concatenate (Arr2 A) (Arr2 B) = Ok (Arr2 (col_mx A B)).
Proof. by rewrite /N_concatenate recast_id. Qed.

Lemma ARModel_whiten_matrix (st : store) (x : obj) m k (A : 'M[F]_(m.+1, k)) :
  Nsqrt (1 - rho (self st) ^+ 2) != 0 -> val x = Arr2 A ->
  ARModel_whiten Nsqrt (PyArr x) st
  = Ok (PyArr (Obj (next_id st) (Arr2 (ar1 Nsqrt (rho (self st)) A))),
        Store (self st) (next_id st).+1).
Proof.
case: st => s i /= nz xE.
rewrite /ARModel_whiten /bind /trait /lift /= xE /=.
rewrite /N_mul {1}/broadcast /N_sub broadcast22 /=.
rewrite N_concatenate22 /= /divide (negPf nz).
congr (Ok (PyArr (Obj _ (Arr2 _)), _)).
apply/matrixP=> a b; rewrite !mxE.
case: splitP => [a0 | a1] aE; rewrite !mxE.
  have a0E : (a : nat) = 0%N by rewrite aE ord1.
  by rewrite a0E eqxx -(at_ord A a b) a0E.
have a1E : (a : nat) = a1.+1 by rewrite aE.
rewrite a1E /= -(at_ord A a b) a1E mul1r.
have lt_a1 : (a1 < m.+1)%N by rewrite ltnW // ltnS.
by rewrite -(at_ord A (inord a1) b) inordK.
Qed.

Lemma ARModel_whiten_vector (st : store) (x : obj) n (v : 'rV[F]_n.+1) :
  Nsqrt (1 - rho (self st) ^+ 2) != 0 -> val x = Arr1 v ->
  ARModel_whiten Nsqrt (PyArr x) st
  = Ok (PyArr (Obj (next_id st) (Arr1 (ar1 Nsqrt (rho (self st)) v^T)^T)),
        Store (self st) (next_id st).+1).
Proof.
case: st => s i /= nz xE.
rewrite /ARModel_whiten /bind /trait /lift /= xE /=.
rewrite /N_mul {1}/broadcast /N_sub broadcast11 /=.
rewrite /N_concatenate /= /divide (negPf nz).
congr (Ok (PyArr (Obj _ (Arr1 _)), _)).
apply/matrixP=> a b; rewrite !mxE ord1 {a}.
case: splitP => [b0 | b1] bE; rewrite !mxE.
  have b0E : (b : nat) = 0%N by rewrite bE ord1.
  by rewrite b0E eqxx -(at_ord v 0 b) b0E.
have b1E : (b : nat) = b1.+1 by rewrite bE.
rewrite b1E /= -(at_ord v 0 b) b1E mul1r.
have lt_b1 : (b1 < n.+1)%N by rewrite ltnW // ltnS.
by rewrite -(at_ord v 0 (inord b1)) inordK.
Qed.

(** [X[0]] of an array without rows is an [IndexError]. *)
Lemma ARModel_whiten_empty (st : store) (x : obj) k (A : 'M[F]_(0, k)) :
  val x = Arr2 A -> ARModel_whiten Nsqrt (PyArr x) st = Raise IndexError.
Proof.
by case: st => s i xE; rewrite /ARModel_whiten /bind /trait /lift /= xE /=.
Qed.

Lemma ar1_0 m k (A : 'M[F]_(m.+1, k)) : Nsqrt 1 = 1 -> ar1 Nsqrt 0 A = A.
Proof.
move=> sqrt1; apply/matrixP=> i j; rewrite mxE; case: ifP => // _.
by rewrite expr0n /= subr0 sqrt1 divr1 mul0r subr0.
Qed.

End WhitenTheory.

Section WLSTheory.

Variable F : archiRealFieldType.
Context {NF : nonfinite F}.
Variable Nsqrt : F -> F.
Notation ndarray := (ndarray F).
Notation obj := (obj F).
Notation model := (model F).
Notation store := (store F).

Lemma at_0 n (v : 'rV[F]_n) (j : 'I_n) : at_ v 0 j = v 0 j.
Proof. exact: (at_ord v 0 j). Qed.

Lemma whiten_columns_upto m k (A V : 'M[F]_(m, k)) (c : 'rV[F]_m) t :
  (forall i, c 0 i != 0) -> (t <= k)%N ->
  foldl (fun acc i => v <- acc ;;
                      col <- getcol (Arr2 A) i ;;
                      q <- N_div col (Arr1 c) ;;
                      setcol v i q)
        (Ok (Arr2 V)) (iota 0 t)
  = Ok (Arr2 (\matrix_(i, j) if (j < t)%N then A i j / c 0 i else V i j)).
Proof.
move=> nz; elim: t => [_ | t IH lt_tk].
  by congr (Ok (Arr2 _)); apply/matrixP=> i j; rewrite mxE.
rewrite -addn1 iotaD foldl_cat add0n IH 1?ltnW //= lt_tk /N_div /= broadcast11 /=.
rewrite bdimxx eqxx; congr (Ok (Arr2 _)).
apply/matrixP=> i j; rewrite !mxE addn1 [in RHS]ltnS [in RHS]leq_eqVlt.
case: eqP => [jt | _] /=; last by [].
by rewrite bidx_ord at_0 !mxE /divide (negPf (nz i)) -jt at_ord.
Qed.

Lemma WLSModel_whiten_matrix (st : store) (x w : obj) m k
    (A : 'M[F]_(m, k)) (wv : 'rV[F]_m) :
  val x = Arr2 A -> weights (self st) = PyArr w -> val w = Arr1 wv ->
  (forall j, Nsqrt (wv 0 j) != 0) ->
  WLSModel_whiten Nsqrt (PyArr x) st
  = Ok (PyArr (Obj (next_id st) (Arr2 (weighted Nsqrt wv A))),
        Store (self st) (next_id st).+1).
Proof.
case: st => s i /= xE ws wE nz.
rewrite /WLSModel_whiten xE /= /bind /trait /= ws /lift /= wE /=.
rewrite /WLSModel_whiten_columns whiten_columns_upto //=.
  by move=> j; rewrite mxE.
congr (Ok (PyArr (Obj _ (Arr2 _)), _)).
by apply/matrixP=> a b; rewrite !mxE ltn_ord.
Qed.

Lemma WLSModel_whiten_vector (st : store) (x w : obj) n
    (v : 'rV[F]_n) (wv : 'rV[F]_n) :
  val x = Arr1 v -> weights (self st) = PyArr w -> val w = Arr1 wv ->
  (forall j, Nsqrt (wv 0 j) != 0) ->
  WLSModel_whiten Nsqrt (PyArr x) st
  = Ok (PyArr (Obj (next_id st) (Arr1 (weighted Nsqrt wv v^T)^T)),
        Store (self st) (next_id st).+1).
Proof.
case: st => s i /= xE ws wE nz.
rewrite /WLSModel_whiten xE /= /bind /trait /= ws /= wE /= /N_div broadcast11 /=.
congr (Ok (PyArr (Obj _ (Arr1 _)), _)).
by apply/matrixP=> a b; rewrite !mxE ord1 /divide (negPf (nz b)).
Qed.

End WLSTheory.

Section ContrastTheory.

Variable F : archiRealFieldType.
Notation ndarray := (ndarray F).

Lemma at_0mx m n i j : at_ (0 : 'M[F]_(m, n)) i j = 0.
Proof. by rewrite /at_; case: insub => // a; case: insub => // b; rewrite mxE. Qed.

Lemma colsel0 m n js : colsel (0 : 'M[F]_(m, n)) js = 0.
Proof. by apply/matrixP=> i j; rewrite !mxE at_0mx. Qed.

Lemma all_zero_squeeze0 m n : all_zero (N_squeeze (Arr2 (0 : 'M[F]_(m, n)))).
Proof.
rewrite /N_squeeze; case: ifP => _; first by rewrite /all_zero /= at_0mx eqxx.
case: ifP => _.
  by apply/allP=> x /mapP[j _ ->]; rewrite mxE at_0mx.
case: ifP => _.
  by apply/allP=> x /mapP[j _ ->]; rewrite mxE at_0mx.
by apply/allP=> x /mapP[j _ ->]; rewrite mxE.
Qed.

Lemma contrastfromcols_rows n p b (D : 'M[F]_(n, p)) (T : 'M[F]_(n, b)) :
  contrastfromcols (Arr2 T) (Arr2 D) None
  = Ok (contrast_of D (pinv D *m T)^T).
Proof.
rewrite /contrastfromcols /= eqxx /= N_dot22 /= N_dot22 /=.
by rewrite /contrast_of; case: ifP => _ /=; rewrite ?N_dot22.
Qed.

Lemma contrastfromcols_cols n p a (D : 'M[F]_(n, p)) (T : 'M[F]_(a, p)) :
  a != n ->
  contrastfromcols (Arr2 T) (Arr2 D) None = Ok (contrast_of D T).
Proof.
move=> ne; rewrite /contrastfromcols /= ne /= eqxx /= (negPf ne) /= N_dot22 /=.
by rewrite /contrast_of; case: ifP => _ /=; rewrite ?N_dot22.
Qed.

Lemma contrastfromcols_mismatch n p a b (D : 'M[F]_(n, p)) (T : 'M[F]_(a, b)) :
  a != n -> b != p ->
  contrastfromcols (Arr2 T) (Arr2 D) None = Raise ValueError.
Proof. by move=> na nb; rewrite /contrastfromcols /= na /= nb. Qed.

(** A 1-D [T] of [n] entries passes the test on the shapes, and
    [Tp.shape[1]] then fails: [Tp] is 1-D as well. *)
Lemma contrastfromcols_vector n p (D : 'M[F]_(n, p)) (v : 'rV[F]_n) :
  contrastfromcols (Arr1 v) (Arr2 D) None = Raise IndexError.
Proof. by rewrite /contrastfromcols /= eqxx /= N_dot21 /= N_dot21. Qed.

Lemma contrast_of_0 n p q (D : 'M[F]_(n, p)) : all_zero (contrast_of D (0 : 'M_(q, p))).
Proof.
rewrite /contrast_of trmx0 mulmx0; case: ifP => _; last exact: all_zero_squeeze0.
by rewrite colsel0 mulmx0 trmx0 all_zero_squeeze0.
Qed.

Lemma pivots0 m n : pivots (0 : 'M[F]_(m, n)) = [::].
Proof.
rewrite /pivots; elim: (iota 0 n) => //= j js IH.
by rewrite colsel0 mxrank0.
Qed.

(** What [contrastfromcols] returns for a zero candidate with [q >= 1] rows
    has no row: no column of the zero matrix [Tp] is kept. *)
Lemma contrast_of_0_rows n p q (D : 'M[F]_(n, p)) :
  (0 < q)%N ->
  contrast_of D (0 : 'M[F]_(q, p)) = N_squeeze (Arr2 (0 : 'M[F]_(0, p))).
Proof.
move=> q_gt0; rewrite /contrast_of trmx0 mulmx0 mxrank0 eq_sym -lt0n q_gt0.
by rewrite pivots0 colsel0 mulmx0 trmx0.
Qed.

End ContrastTheory.

Section InvariantTheory.

Variable F : archiRealFieldType.
Context {NF : nonfinite F}.
Variable Nsqrt : F -> F.
Notation ndarray := (ndarray F).
Notation obj := (obj F).
Notation value := (value F).
Notation model := (model F).
Notation store := (store F).

Lemma df_of_round m n (W : 'M[F]_(m, n)) :
  df_of W = (m : int) - round_half_even (\tr (pinv W *m W)).
Proof.
by rewrite mxtrace_pinv /df_of (_ : _%:R = ((\rank W : int)%:~R : F))
   ?round_half_even_int.
Qed.

Lemma installed_consistent m n (W : 'M[F]_(m, n)) (w : obj) k (s : model) :
  val w = Arr2 W ->
  setup_consistent (installed W k (set_wdesign (Some (PyArr w)) s)).
Proof.
move=> wE.
apply: (@SetupConsistent F _ m n W (pinv W) w (Obj k (Arr2 (pinv W)))
          (Obj k.+1 (Arr2 (pinv W *m (pinv W)^T)))) => //=.
- exact: pinvP.
- by rewrite df_of_round.
Qed.

Lemma OLSModel_setup_inv (st st' : store) :
  OLSModel_setup st = Ok (tt, st') ->
  exists m n (W : 'M[F]_(m, n)) (w : obj),
    [/\ wdesign (self st) = Some (PyArr w), val w = Arr2 W
      & st' = Store (installed W (next_id st) (self st)) (next_id st).+2].
Proof.
move=> H; case ws: (wdesign (self st)) H => [[|w]|].
- by rewrite /OLSModel_setup /bind /getattr ws /=.
- case wE: (val w) => [x|k v|m n W].
  + by rewrite /OLSModel_setup /bind /getattr ws /= wE /=.
  + by rewrite /OLSModel_setup /bind /getattr ws /= wE /=.
  by rewrite (OLSModel_setup_ok ws wE) => -[<-]; exists m, n, W, w.
- by rewrite /OLSModel_setup /bind /getattr ws /=.
Qed.

Lemma bind_inv A B (c : M F A) (k : A -> M F B) st r :
  bind c k st = Ok r -> exists a st1, c st = Ok (a, st1) /\ k a st1 = Ok r.
Proof.
by rewrite /bind; case: (c st) => [[a st1]|e] // kr; exists a, st1.
Qed.

Lemma setattr_wdesign_consistent (w : value) (st st' : store) :
  setattr_wdesign w st = Ok (tt, st') -> setup_consistent (self st').
Proof.
rewrite /setattr_wdesign /bind /assign /OLSModel__wdesign_changed.
case/OLSModel_setup_inv=> m [n] [W] [w'] [/= [->] wE ->] /=.
exact: installed_consistent.
Qed.

Lemma new_self (r : result ndarray) (st st' : store) o :
  new r st = Ok (o, st') -> self st' = self st.
Proof. by rewrite /new; case: r => // a [_ <-]. Qed.

Lemma whiten_self (X v : value) (st st' : store) :
  whiten Nsqrt X st = Ok (v, st') -> self st' = self st.
Proof.
rewrite /whiten /bind /trait; case: (cls (self st)).
- by rewrite /OLSModel_whiten /ret => -[_ <-].
- rewrite /ARModel_whiten /bind /trait /lift.
  case: (d <- _ ;; _) => // f.
  by case nw: (new _ _) => [[o st1]|] // [_ <-]; apply: new_self nw.
rewrite /WLSModel_whiten; case: X => // x; case: (ndim x) => [|[|[|k]]].
- by rewrite /ret => -[_ <-].
- rewrite /bind /trait.
  by case nw: (new _ _) => [[o st1]|] // [_ <-]; apply: new_self nw.
- rewrite /bind /trait /lift; case: (w <- _ ;; _) => // c.
  by case nw: (new _ _) => [[o st1]|] // [_ <-]; apply: new_self nw.
by rewrite /ret => -[_ <-].
Qed.

Lemma _design_changed_consistent (st st' : store) :
  _design_changed Nsqrt st = Ok (tt, st') -> setup_consistent (self st').
Proof.
rewrite /_design_changed {1}/bind /trait; case: (cls (self st)).
- rewrite /OLSModel__design_changed /bind /trait.
  exact: setattr_wdesign_consistent.
- rewrite /ARModel__design_changed {1}/bind /trait.
  by case/bind_inv=> w [st1] [_]; apply: setattr_wdesign_consistent.
- rewrite /ARModel__design_changed {1}/bind /trait.
  by case/bind_inv=> w [st1] [_]; apply: setattr_wdesign_consistent.
Qed.

Lemma frame_bind A B (c : M F A) (k : A -> M F B) :
  frame c -> (forall a, frame (k a)) -> frame (bind c k).
Proof.
move=> fc fk st b st' /bind_inv[a [st1 [ca kb]]].
by rewrite (fk _ _ _ _ kb) (fc _ _ _ ca).
Qed.

Lemma frame_ret A (a : A) : frame (ret (F:=F) a).
Proof. by move=> st b st' [_ <-]. Qed.

Lemma frame_new r : frame (new (F:=F) r).
Proof. by move=> st o st'; apply: new_self. Qed.

Lemma frame_getattr A (name : model -> option A) : frame (getattr name).
Proof. by move=> st a st'; rewrite /getattr; case: (name _) => // x [_ <-]. Qed.

Lemma frame_lift A (r : result A) : frame (lift (F:=F) r).
Proof. by move=> st a st'; rewrite /lift; case: r => // x [_ <-]. Qed.

Lemma frame_whiten X : frame (whiten Nsqrt X).
Proof. by move=> st v st'; apply: whiten_self. Qed.

Lemma fit_self (Y : value) lfit (st st2 : store) :
  setup_consistent (self st) ->
  OLSModel_fit Nsqrt Y st = Ok (lfit, st2) -> self st2 = self st.
Proof.
case=> m n W B w cb ncb ws wE cbs cbE pB ncbs ncbE dfs.
rewrite /OLSModel_fit {1}/bind /trait cbs {1}/bind /ret.
move: lfit st2; apply: frame_bind; first exact: frame_whiten.
move=> Z; apply: frame_bind; first exact: frame_getattr.
move=> cb'; apply: frame_bind; first exact: frame_new.
move=> beta; apply: frame_bind; first exact: frame_getattr.
move=> ncb'; apply: frame_bind; first exact: frame_getattr.
move=> w'; apply: frame_bind; first exact: frame_new.
move=> resid; apply: frame_bind; first exact: frame_lift.
move=> ssr; apply: frame_bind; first exact: frame_getattr.
move=> df; apply: frame_bind; first exact: frame_new.
by move=> scale; apply: frame_ret.
Qed.

Lemma setattr_rho_AR (st : store) (r : F) (d : obj) m k (A : 'M[F]_(m.+1, k)) :
  cls (self st) = ARModel -> design (self st) = PyArr d -> val d = Arr2 A ->
  r != rho (self st) -> Nsqrt (1 - r ^+ 2) != 0 ->
  let w := Obj (next_id st) (Arr2 (ar1 Nsqrt r A)) in
  setattr_rho Nsqrt r st
  = Ok (tt, Store (installed (ar1 Nsqrt r A) (next_id st).+1
                     (set_wdesign (Some (PyArr w)) (set_rho r (self st))))
                  (next_id st).+3).
Proof.
case: st => s i /= ar ds dE /negPf ne nz.
rewrite /setattr_rho /bind /assign /trait /= ar ne /ARModel__rho_changed.
rewrite /_design_changed /bind /trait /= ar /ARModel__design_changed.
rewrite /bind /trait /= ds /whiten /bind /trait /= ar /=.
rewrite (ARModel_whiten_matrix _ dE) //=.
by rewrite (@setattr_wdesign_ok _ _ _ _ _ (ar1 Nsqrt r A)).
Qed.

Lemma setattr_weights_WLS (st : store) (d w : obj) m k
    (A : 'M[F]_(m, k)) (wv : 'rV[F]_m) :
  cls (self st) = WLSModel -> design (self st) = PyArr d -> val d = Arr2 A ->
  val w = Arr1 wv -> (forall j, Nsqrt (wv 0 j) != 0) ->
  let wd := Obj (next_id st) (Arr2 (weighted Nsqrt wv A)) in
  setattr_weights Nsqrt (PyArr w) st
  = Ok (tt, Store (installed (weighted Nsqrt wv A) (next_id st).+1
                     (set_wdesign (Some (PyArr wd))
                        (set_weights (PyArr w) (self st))))
                  (next_id st).+3).
Proof.
case: st => s i /= wls ds dE wE nz.
rewrite /setattr_weights /bind /assign /trait /= wls /WLSModel__weights_changed.
rewrite /_design_changed /bind /trait /= wls /ARModel__design_changed.
rewrite /bind /trait /= ds /whiten /bind /trait /= wls /=.
rewrite (WLSModel_whiten_matrix dE _ wE nz) //=.
by rewrite (@setattr_wdesign_ok _ _ _ _ _ (weighted Nsqrt wv A)).
Qed.

(** C2: after every change to the whitened design the quantities the model
    stores are consistent with it: [calc_beta] is the Moore-Penrose
    pseudo-inverse of [wdesign], [normalized_cov_beta] is [calc_beta]
    times its transpose, and [_df_resid] is the number of rows minus the
    rounded trace of [calc_beta] times [wdesign].  Binding a matrix to
    [wdesign], or a design matrix to an OLS model, always gets there; an
    assignment to [wdesign], to [design], of another number to [rho] (on
    an AR or WLS model) or to [weights] (on a WLS model) that returns has
    got there; and a fit
    leaves the attributes of a consistent model as they are. *)
Theorem setup_invariant (st : store) :
  [/\ forall (w : obj) m n (W : 'M[F]_(m, n)), val w = Arr2 W ->
        exists2 st', setattr_wdesign (PyArr w) st = Ok (tt, st')
                   & setup_consistent (self st')
     & forall (d : obj) m n (D : 'M[F]_(m, n)),
        cls (self st) = OLSModel -> val d = Arr2 D ->
        exists2 st', setattr_design Nsqrt (PyArr d) st = Ok (tt, st')
                   & setup_consistent (self st')]
  /\ (forall st',
      [/\ forall w, setattr_wdesign w st = Ok (tt, st') ->
            setup_consistent (self st'),
          forall d, setattr_design Nsqrt d st = Ok (tt, st') ->
            setup_consistent (self st'),
          forall r, cls (self st) <> OLSModel -> r != rho (self st) ->
            setattr_rho Nsqrt r st = Ok (tt, st') ->
            setup_consistent (self st'),
          forall w, cls (self st) = WLSModel ->
            setattr_weights Nsqrt w st = Ok (tt, st') ->
            setup_consistent (self st')
        & forall Y lfit, setup_consistent (self st) ->
            OLSModel_fit Nsqrt Y st = Ok (lfit, st') -> self st' = self st]).
Proof.
split=> [|st'].
  split=> [w m n W wE | d m n D ols dE].
    rewrite (setattr_wdesign_ok _ wE); eexists; first by [].
    exact: installed_consistent.
  rewrite (setattr_design_OLS Nsqrt ols dE); eexists; first by [].
  exact: installed_consistent.
split.
- by move=> w; apply: setattr_wdesign_consistent.
- move=> d; rewrite /setattr_design /bind /assign.
  exact: _design_changed_consistent.
- move=> r nols /negPf ne; rewrite /setattr_rho /bind /assign /trait /= ne.
  case: (cls (self st)) nols => // _; exact: _design_changed_consistent.
- move=> w wls; rewrite /setattr_weights /bind /assign /trait /= wls.
  exact: _design_changed_consistent.
- by move=> Y lfit; apply: fit_self.
Qed.

(** C1: on an OLS model whose design matrix [D] has been set, the whitened
    design is [D], whitening is the identity, and [fit] returns for every
    response of [n] rows (a matrix, or a vector) a result whose
    coefficients are the pseudo-inverse of the whitened design times the
    whitened response, whose residuals are the whitened response minus the
    whitened design times the coefficients, and whose scale, when the
    residual degrees of freedom are not 0, is the sum of the squared
    residuals divided by them.  With no residual degree of freedom [fit]
    returns as well, and what the division by 0 leaves in [scale] is not a
    number. *)
Theorem fit_OLS (st : store) (d : obj) n p (D : 'M[F]_(n, p)) :
  cls (self st) = OLSModel -> val d = Arr2 D ->
  exists2 st1, setattr_design Nsqrt (PyArr d) st = Ok (tt, st1) &
  [/\ wdesign (self st1) = Some (PyArr d),
      forall Y, whiten Nsqrt Y st1 = Ok (Y, st1),
      _df_resid (self st1) = Some (df_of D),
      forall (y : obj) k (Y : 'M[F]_(n, k)), val y = Arr2 Y ->
        let beta := pinv D *m Y in
        let resid := Y - D *m beta in
        exists lfit st2,
          [/\ OLSModel_fit Nsqrt (PyArr y) st1 = Ok (lfit, st2),
              omap (@val F) (lfit_beta lfit) = Some (Arr2 beta),
              omap (@val F) (lfit_resid lfit) = Some (Arr2 resid)
            & df_of D != 0 ->
              omap (@val F) (lfit_scale lfit)
              = Some (Arr1 (\row_j ((\sum_i resid i j ^+ 2)
                                    / (df_of D)%:~R)))]
    & forall (y : obj) (Y : 'rV[F]_n), val y = Arr1 Y ->
        let beta := (pinv D *m Y^T)^T in
        let resid := Y - (D *m beta^T)^T in
        exists lfit st2,
          [/\ OLSModel_fit Nsqrt (PyArr y) st1 = Ok (lfit, st2),
              omap (@val F) (lfit_beta lfit) = Some (Arr1 beta),
              omap (@val F) (lfit_resid lfit) = Some (Arr1 resid)
            & df_of D != 0 ->
              omap (@val F) (lfit_scale lfit)
              = Some (Arr0 ((\sum_i resid 0 i ^+ 2) / (df_of D)%:~R))]].
Proof.
move=> ols dE; rewrite (setattr_design_OLS Nsqrt ols dE).
set st1 := Store _ _; exists st1 => //.
have ols1 : cls (self st1) = OLSModel by [].
split=> //.
- by move=> Y; rewrite /whiten /bind /trait ols1.
- move=> y k Y yE /=.
  rewrite (fit_matrix Nsqrt ols1 (erefl _) (erefl _) (erefl _) (erefl _) dE
             (erefl _) yE).
  do 2!eexists; split=> //= nz; congr (Some (Arr1 _)).
  by apply/rowP=> j; rewrite !mxE /divide intr_eq0 (negPf nz).
move=> y Y yE /=.
rewrite (fit_vector Nsqrt ols1 (erefl _) (erefl _) (erefl _) (erefl _) dE
           (erefl _) yE).
do 2!eexists; split=> //=.
  by rewrite /resid_of /beta_of linearB /= !trmxK.
move=> nz; congr (Some (Arr0 _)).
rewrite mxE /divide intr_eq0 (negPf nz); congr (_ / _).
have -> : Y - (D *m ((pinv D *m Y^T)^T)^T)^T = (resid_of D (pinv D) Y^T)^T.
  by rewrite /resid_of /beta_of linearB /= !trmxK.
by apply: eq_bigr => i _; rewrite [in RHS]mxE.
Qed.

End InvariantTheory.

Section Claims.

Variable F : archiRealFieldType.
Context {NF : nonfinite F}.
Variable Nsqrt : F -> F.
Notation ndarray := (ndarray F).
Notation obj := (obj F).
Notation value := (value F).
Notation model := (model F).
Notation store := (store F).

(** C3: on an input with at least one row, the whitening of an AR(1) model
    with a correlation [r] of square less than 1, for which the square root
    of [1 - r^2] is not 0, keeps row 0 and makes row [i], for [i >= 1],
    [(X[i] - r X[i-1]) / sqrt (1 - r^2)], for a matrix and for a vector;
    with [r = 0], and a square root that is exact at 1, the result is the
    input.  At [r = 1] and [r = -1] the divisor is 0, beyond them the square
    root is taken of a negative number, and the rows after the first are
    not numbers. *)
Theorem ARModel_whiten_spec (st : store) (x : obj) :
  let r := rho (self st) in
  r ^+ 2 < 1 -> Nsqrt (1 - r ^+ 2) != 0 ->
  (forall m k (A : 'M[F]_(m.+1, k)), val x = Arr2 A ->
     exists W : 'M[F]_(m.+1, k),
       [/\ ARModel_whiten Nsqrt (PyArr x) st
           = Ok (PyArr (Obj (next_id st) (Arr2 W)),
                 Store (self st) (next_id st).+1),
           forall j, W 0 j = A 0 j,
           forall (i : 'I_m.+1) j, (0 < i)%N ->
             W i j = (A i j - r * A (inord i.-1) j) / Nsqrt (1 - r ^+ 2)
         & r = 0 -> Nsqrt 1 = 1 -> W = A])
  /\ (forall n (v : 'rV[F]_n.+1), val x = Arr1 v ->
     exists w : 'rV[F]_n.+1,
       [/\ ARModel_whiten Nsqrt (PyArr x) st
           = Ok (PyArr (Obj (next_id st) (Arr1 w)),
                 Store (self st) (next_id st).+1),
           w 0 0 = v 0 0,
           forall i : 'I_n.+1, (0 < i)%N ->
             w 0 i = (v 0 i - r * v 0 (inord i.-1)) / Nsqrt (1 - r ^+ 2)
         & r = 0 -> Nsqrt 1 = 1 -> w = v]).
Proof.
cbv zeta => _ nz; split=> [m k A xE | n v xE].
  exists (ar1 Nsqrt (rho (self st)) A); split.
  - exact: ARModel_whiten_matrix.
  - by move=> j; rewrite mxE.
  - by move=> i j; rewrite mxE; case: (nat_of_ord i).
  - by move=> -> sqrt1; apply: ar1_0.
exists (ar1 Nsqrt (rho (self st)) v^T)^T; split.
- exact: ARModel_whiten_vector.
- by rewrite !mxE.
- by move=> i; rewrite !mxE; case: (nat_of_ord i).
- by move=> -> sqrt1; rewrite ar1_0 ?trmxK.
Qed.

(** C4: on a WLS model with a vector [wv] of positive weights, whose
    square roots are not 0, [whiten] divides a 1-D input entry by entry by
    the square roots of the weights, and divides every column of a 2-D
    input by them; the result does not depend on [rho], the AR(1) transform
    of the parent class being overridden and not chained; with all the
    weights 1, and a square root that is exact at 1, the result is the
    input.  A weight 0 is a divisor 0, the square root of a negative weight
    is not a number, and neither are the entries of the rows they
    divide. *)
Theorem WLSModel_whiten_spec (st : store) (x w : obj) n (wv : 'rV[F]_n) :
  cls (self st) = WLSModel -> weights (self st) = PyArr w -> val w = Arr1 wv ->
  (forall j, 0 < wv 0 j) -> (forall j, Nsqrt (wv 0 j) != 0) ->
  let st' := Store (self st) (next_id st).+1 in
  [/\ forall v : 'rV[F]_n, val x = Arr1 v ->
        whiten Nsqrt (PyArr x) st
        = Ok (PyArr (Obj (next_id st)
                         (Arr1 (\row_j (v 0 j / Nsqrt (wv 0 j))))), st'),
      forall k (A : 'M[F]_(n, k)), val x = Arr2 A ->
        whiten Nsqrt (PyArr x) st
        = Ok (PyArr (Obj (next_id st)
                         (Arr2 (\matrix_(i, j) (A i j / Nsqrt (wv 0 i))))), st'),
      forall (X : value) (r : F),
        rmap fst (whiten Nsqrt X (Store (set_rho r (self st)) (next_id st)))
        = rmap fst (whiten Nsqrt X st)
    & wv = const_mx 1 -> Nsqrt 1 = 1 ->
      (forall v : 'rV[F]_n, val x = Arr1 v ->
         whiten Nsqrt (PyArr x) st
         = Ok (PyArr (Obj (next_id st) (Arr1 v)), st'))
      /\ (forall k (A : 'M[F]_(n, k)), val x = Arr2 A ->
         whiten Nsqrt (PyArr x) st
         = Ok (PyArr (Obj (next_id st) (Arr2 A)), st'))].
Proof.
move=> wls ws wE _ nz /=.
have wh X : whiten Nsqrt X st = WLSModel_whiten Nsqrt X st.
  by rewrite /whiten /bind /trait wls.
have vec (v : 'rV[F]_n) : val x = Arr1 v ->
    whiten Nsqrt (PyArr x) st
    = Ok (PyArr (Obj (next_id st) (Arr1 (\row_j (v 0 j / Nsqrt (wv 0 j))))),
          Store (self st) (next_id st).+1).
  move=> xE; rewrite wh (WLSModel_whiten_vector xE ws wE nz).
  congr (Ok (PyArr (Obj _ (Arr1 _)), _)).
  by apply/matrixP=> i j; rewrite !mxE ord1.
have mat k (A : 'M[F]_(n, k)) : val x = Arr2 A ->
    whiten Nsqrt (PyArr x) st
    = Ok (PyArr (Obj (next_id st) (Arr2 (\matrix_(i, j) (A i j / Nsqrt (wv 0 i))))),
          Store (self st) (next_id st).+1).
  by move=> xE; rewrite wh (WLSModel_whiten_matrix xE ws wE nz).
split=> //.
- move=> X r; rewrite /whiten /bind /trait /= wls.
  rewrite /WLSModel_whiten; case: X => // X; case: (ndim X) => [|[|[|?]]] //.
  + by rewrite /bind /trait /= /new; case: (w0 <- _ ;; _).
  + rewrite /bind /trait /lift /=; case: (w0 <- _ ;; _) => //= c.
    by rewrite /new /=; case: (m <- _ ;; _).
- move=> wv1 sqrt1; split=> [v xE | k A xE].
    rewrite (vec _ xE) wv1; congr (Ok (PyArr (Obj _ (Arr1 _)), _)).
    by apply/matrixP=> i j; rewrite !mxE sqrt1 divr1 ord1.
  rewrite (mat _ _ xE) wv1; congr (Ok (PyArr (Obj _ (Arr2 _)), _)).
  by apply/matrixP=> i j; rewrite !mxE sqrt1 divr1.
Qed.

(** C5: for an n x p design and a matrix [T], [contrastfromcols] raises the
    shape error exactly when [T] has neither n rows nor p columns;
    otherwise it returns, whatever the rank of [T]; and all the entries of
    what it returns for a zero [T] are 0. *)
Theorem contrastfromcols_shape n p a b (D : 'M[F]_(n, p)) (T : 'M[F]_(a, b)) :
  let mismatched := (a != n) && (b != p) in
  [/\ contrastfromcols (Arr2 T) (Arr2 D) None = Raise ValueError <-> mismatched,
      ~~ mismatched -> returns (contrastfromcols (Arr2 T) (Arr2 D) None)
    & ~~ mismatched -> T = 0 ->
      exists2 C, contrastfromcols (Arr2 T) (Arr2 D) None = Ok C & all_zero C].
Proof.
move=> /=; case: (altP (a =P n)) => [an | na] /=.
  move: T; rewrite an => T; rewrite contrastfromcols_rows; split=> //.
  - by move=> _; eexists.
  - move=> _ ->; eexists; first by [].
    by rewrite mulmx0 trmx0; apply: contrast_of_0.
case: (altP (b =P p)) => [bp | nb] /=.
  move: T; rewrite bp => T; rewrite contrastfromcols_cols //; split=> //.
  - by move=> _; eexists.
  - by move=> _ ->; eexists; last apply: contrast_of_0.
by rewrite contrastfromcols_mismatch.
Qed.

(** C7, for a contrast and a design with the same number of columns:
    [isestimable] returns, and returns [true] exactly when the rank of [C]
    stacked on [D] is the rank of [D]; it returns [true] for [D] itself
    and for a zero contrast. *)
Theorem isestimable_spec q n p (C : 'M[F]_(q, p)) (D : 'M[F]_(n, p)) :
  [/\ isestimable (Arr2 C) (Arr2 D) = Ok (\rank (col_mx C D) == \rank D),
      isestimable (Arr2 D) (Arr2 D) = Ok true
    & isestimable (Arr2 (0 : 'M[F]_(q, p))) (Arr2 D) = Ok true].
Proof.
have est q' (C' : 'M[F]_(q', p)) :
    isestimable (Arr2 C') (Arr2 D) = Ok (\rank (col_mx C' D) == \rank D).
  by rewrite /isestimable N_concatenate22 /=; case: eqP.
split; rewrite est //.
- have [<- _] := addsmxE D D.
  by have [-> _] := addsmx_idPr (submx_refl D); rewrite eqxx.
- by rewrite rank_col_0mx eqxx.
Qed.

Lemma isestimable_columns q n p p' (C : 'M[F]_(q, p')) (D : 'M[F]_(n, p)) :
  p != p' -> isestimable (Arr2 C) (Arr2 D) = Raise ValueError.
Proof.
by move=> ne; rewrite /isestimable /N_concatenate (recast_neq_col _ _ ne).
Qed.

Notation results := (RegressionModelResults F).

Lemma sd_caches (r r' : results) :
  RegressionModelResults_sd Nsqrt r = Ok r' -> exists v, _sd r' = Some v.
Proof.
rewrite /RegressionModelResults_sd; case: (lfit_resid r) => // _.
by case: (lfit_scale r) => //= s [<-]; eexists.
Qed.

(** C8: on a result without residuals [sd] raises the [ValueError] that
    asks for them, and so does [t] when no standard deviation is cached,
    in particular on a result no fit has filled; [t] computes the
    standard deviation through [sd] when it is absent. *)
Theorem sd_t_need_residuals (g : globals F) (r : results)
    (column : option nat) :
  lfit_resid r = None ->
  [/\ RegressionModelResults_sd Nsqrt r = Raise ValueError,
      _sd r = None ->
        RegressionModelResults_t Nsqrt g r column = Raise ValueError,
      RegressionModelResults_t Nsqrt g (new_results F) column
      = Raise ValueError
    & forall r' : results, _sd r' = None ->
        RegressionModelResults_t Nsqrt g r' column
        = (r'' <- RegressionModelResults_sd Nsqrt r' ;;
           RegressionModelResults_t Nsqrt g r'' column)].
Proof.
move=> no_resid.
have sdE : RegressionModelResults_sd Nsqrt r = Raise ValueError.
  by rewrite /RegressionModelResults_sd no_resid.
split=> //.
- by move=> no_sd; rewrite /RegressionModelResults_t no_sd sdE.
- move=> r' no_sd; rewrite {1}/RegressionModelResults_t no_sd.
  case sd': (RegressionModelResults_sd Nsqrt r') => [r''|e] //=.
  by have [v sdv] := sd_caches sd'; rewrite /RegressionModelResults_t sdv /= sdv.
Qed.

(** C9, what the code does: [Rsq] reads the name [Y], which the module
    does not bind, and raises a [NameError] on every result. *)
Theorem Rsq_unbound_response (r : results) :
  RegressionModelResults_Rsq Nsqrt (module_globals F) r = Raise NameError.
Proof. by []. Qed.

(** [Rsq] with a global [Y] bound by some caller: the response the fit
    stored in [Z] is not consulted. *)
Lemma Rsq_global_response (Y : ndarray) (r : results) (z : option value) :
  let g := Globals (Some Y) None in
  let r' := Results (lfit_beta r) (lfit_normalized_cov_beta r)
              (lfit_df_resid r) (lfit_resid r) (lfit_scale r) z (_sd r)
              (Ssq r) in
  rmap fst (RegressionModelResults_Rsq Nsqrt g r')
  = rmap fst (RegressionModelResults_Rsq Nsqrt g r).
Proof.
rewrite /RegressionModelResults_Rsq /=.
by case: (lfit_scale r) => //= s; case: (N_div _ _).
Qed.

End Claims.

Section Scaling.

Variable F : archiRealFieldType.
Notation ndarray := (ndarray F).

Lemma N_mul_scalar (c : F) (a : ndarray) : N_mul (scalar c) a = Ok (scal c a).
Proof.
case: a => [x|n v|m n A] //=; rewrite /N_mul /broadcast /=.
- by congr (Ok (Arr1 _)); apply/matrixP=> i j; rewrite !mxE.
- by congr (Ok (Arr2 _)); apply/matrixP=> i j; rewrite !mxE.
Qed.

Lemma at_scale (c : F) m n (A : 'M[F]_(m, n)) i j : at_ (c *: A) i j = c * at_ A i j.
Proof.
rewrite /at_; case: insub => [a|]; last by rewrite mulr0.
by case: insub => [b|]; rewrite ?mulr0 // mxE.
Qed.

Lemma recast_scale (c : F) m n m' n' (A : 'M[F]_(m, n)) :
  recast m' n' (c *: A) = omap (fun B => c *: B) (recast m' n' A).
Proof.
rewrite /recast; case: ifP => //= _; congr Some.
by apply/matrixP=> i j; rewrite !mxE at_scale.
Qed.

Lemma scal_scal (c d : F) (a : ndarray) : scal c (scal d a) = scal (c * d) a.
Proof. by case: a => [x|n v|m n A] /=; rewrite ?mulrA ?scalerA. Qed.

Lemma scal1 (a : ndarray) : scal 1 a = a.
Proof. by case: a => [x|n v|m n A] /=; rewrite ?mul1r ?scale1r. Qed.

Lemma shape_scal (c : F) (a : ndarray) k : shape_at (scal c a) k = shape_at a k.
Proof. by case: a. Qed.

Lemma N_transpose_scal (c : F) (a : ndarray) :
  N_transpose (scal c a) = scal c (N_transpose a).
Proof. by case: a => [x|n v|m n A] //=; rewrite linearZ. Qed.

Lemma N_dot_scall (c : F) (a b : ndarray) :
  N_dot (scal c a) b = rmap (scal c) (N_dot a b).
Proof.
case: a b => [x|n v|m n A] [y|n' w|m' n' B]; rewrite /N_dot /=.
- by rewrite mulrA.
- by congr (Ok (Arr1 _)); apply/matrixP=> i j; rewrite !mxE mulrA.
- by congr (Ok (Arr2 _)); apply/matrixP=> i j; rewrite !mxE mulrA.
- by congr (Ok (Arr1 _)); apply/matrixP=> i j; rewrite !mxE mulrA.
- by case: recast => //= w'; rewrite -scalemxAl mxE.
- by case: recast => //= B'; rewrite -scalemxAl.
- by congr (Ok (Arr2 _)); apply/matrixP=> i j; rewrite !mxE mulrA.
- by case: recast => //= w'; rewrite -scalemxAl linearZ.
- by case: recast => //= B'; rewrite -scalemxAl.
Qed.

Lemma N_dot_scalr (c : F) (a b : ndarray) :
  N_dot a (scal c b) = rmap (scal c) (N_dot a b).
Proof.
case: a b => [x|n v|m n A] [y|n' w|m' n' B]; rewrite /N_dot /=.
- by rewrite mulrCA.
- by congr (Ok (Arr1 _)); apply/matrixP=> i j; rewrite !mxE mulrCA.
- by congr (Ok (Arr2 _)); apply/matrixP=> i j; rewrite !mxE mulrCA.
- by congr (Ok (Arr1 _)); apply/matrixP=> i j; rewrite !mxE mulrCA.
- by rewrite linearZ recast_scale; case: recast => //= w'; rewrite -scalemxAr mxE.
- by rewrite recast_scale; case: recast => //= B'; rewrite -scalemxAr.
- by congr (Ok (Arr2 _)); apply/matrixP=> i j; rewrite !mxE mulrCA.
- by rewrite linearZ recast_scale; case: recast => //= w'; rewrite -scalemxAr linearZ.
- by rewrite recast_scale; case: recast => //= B'; rewrite -scalemxAr.
Qed.

Lemma N_mul_scall (c : F) (a b : ndarray) :
  N_mul (scal c a) b = rmap (scal c) (N_mul a b).
Proof.
case: a b => [x|n v|m n A] [y|n' w|m' n' B]; rewrite /N_mul /broadcast /=.
- by rewrite mulrA.
- by congr (Ok (Arr1 _)); apply/matrixP=> i j; rewrite !mxE mulrA.
- by congr (Ok (Arr2 _)); apply/matrixP=> i j; rewrite !mxE mulrA.
- by congr (Ok (Arr1 _)); apply/matrixP=> i j; rewrite !mxE mulrA.
- case: bdim => //= k; congr (Ok (Arr1 _)).
  by apply/matrixP=> i j; rewrite !mxE at_scale mulrA.
- case: bdim => //= k; congr (Ok (Arr2 _)).
  by apply/matrixP=> i j; rewrite !mxE at_scale mulrA.
- by congr (Ok (Arr2 _)); apply/matrixP=> i j; rewrite !mxE mulrA.
- case: bdim => //= k; congr (Ok (Arr2 _)).
  by apply/matrixP=> i j; rewrite !mxE at_scale mulrA.
- case: bdim => //= k; case: bdim => //= l; congr (Ok (Arr2 _)).
  by apply/matrixP=> i j; rewrite !mxE at_scale mulrA.
Qed.

Lemma N_mul_scalr (c : F) (a b : ndarray) :
  N_mul a (scal c b) = rmap (scal c) (N_mul a b).
Proof.
case: a b => [x|n v|m n A] [y|n' w|m' n' B]; rewrite /N_mul /broadcast /=.
- by rewrite mulrCA.
- by congr (Ok (Arr1 _)); apply/matrixP=> i j; rewrite !mxE mulrCA.
- by congr (Ok (Arr2 _)); apply/matrixP=> i j; rewrite !mxE mulrCA.
- by congr (Ok (Arr1 _)); apply/matrixP=> i j; rewrite !mxE mulrCA.
- case: bdim => //= k; congr (Ok (Arr1 _)).
  by apply/matrixP=> i j; rewrite !mxE at_scale mulrCA.
- case: bdim => //= k; congr (Ok (Arr2 _)).
  by apply/matrixP=> i j; rewrite !mxE at_scale mulrCA.
- by congr (Ok (Arr2 _)); apply/matrixP=> i j; rewrite !mxE mulrCA.
- case: bdim => //= k; congr (Ok (Arr2 _)).
  by apply/matrixP=> i j; rewrite !mxE at_scale mulrCA.
- case: bdim => //= k; case: bdim => //= l; congr (Ok (Arr2 _)).
  by apply/matrixP=> i j; rewrite !mxE at_scale mulrCA.
Qed.

Lemma L_inv_scal (c : F) (a : ndarray) :
  c != 0 -> L_inv (scal c a) = rmap (scal c^-1) (L_inv a).
Proof.
move=> nz_c; case: a => [x|n v|m n A] //=.
rewrite recast_scale; case: recast => //= A'.
have uc : c \is a GRing.unit by rewrite unitfE.
by rewrite unitmxZ //; case: ifP => //= uA; rewrite invmxZ // unitmxZ.
Qed.

Notation results := (RegressionModelResults F).

(** C6: for a number [c != 0], the F contrast of [c * M], computed with the
    default inverse covariance, is the F contrast of [M]: the same
    statistic, or the same exception. *)
Theorem Fcontrast_scale_invariant (r : results) (M cM : ndarray) (c : F) :
  c != 0 -> N_mul (scalar c) M = Ok cM ->
  RegressionModelResults_Fcontrast r cM None
  = RegressionModelResults_Fcontrast r M None.
Proof.
move=> nz_c; rewrite N_mul_scalar => -[<-].
rewrite /RegressionModelResults_Fcontrast.
case: (lfit_beta r) => [beta|] //=.
rewrite N_dot_scall; case: (N_dot M beta) => [cbeta|e] //=.
rewrite shape_scal; case: (shape_at M 0) => [q|e] //=.
rewrite /RegressionModelResults_cov_beta /=.
case: (lfit_normalized_cov_beta r) => [ncb|] //=.
rewrite N_transpose_scal N_dot_scalr.
case: (N_dot ncb (N_transpose M)) => [inner|e] //=.
rewrite N_dot_scall N_dot_scalr.
case: (N_dot M inner) => [tmp|e] //=.
rewrite scal_scal N_mul_scall.
case: (N_mul tmp (scalar 1)) => [v|e] //=.
have nz_cc : c * c != 0 by rewrite mulf_neq0.
rewrite L_inv_scal //; case: (L_inv v) => [invcov|e] //=.
rewrite N_dot_scall N_dot_scalr.
case: (N_dot invcov cbeta) => [ic|e] //=.
rewrite scal_scal N_mul_scall N_mul_scalr.
case: (N_mul ic cbeta) => [prod|e] //=.
by rewrite scal_scal -mulrA mulVf // scal1.
Qed.

End Scaling.

Section Aliasing.

Variable F : archiRealFieldType.
Context {NF : nonfinite F}.
Variable Nsqrt : F -> F.
Notation ndarray := (ndarray F).
Notation obj := (obj F).
Notation value := (value F).
Notation model := (model F).
Notation store := (store F).

Lemma redesign_after_fit (st : store) (d1 d2 y : obj) n p n' p' k
    (D1 : 'M[F]_(n, p)) (D2 : 'M[F]_(n', p')) (Y : 'M[F]_(n, k)) :
  cls (self st) = OLSModel ->
  val d1 = Arr2 D1 -> val d2 = Arr2 D2 -> val y = Arr2 Y ->
  exists st1 lfit st2 st3 bm (ncb ncb' : obj),
    [/\ [/\ setattr_design Nsqrt (PyArr d1) st = Ok (tt, st1),
            OLSModel_fit Nsqrt (PyArr y) st1 = Ok (lfit, st2)
          & setattr_design Nsqrt (PyArr d2) st2 = Ok (tt, st3)],
        [/\ lfit_df_resid lfit = Some bm,
            call bm st2 = Ok (df_of D1, st2)
          & call bm st3 = Ok (df_of D2, st3)],
        [/\ lfit_normalized_cov_beta lfit = Some ncb,
            normalized_cov_beta (self st2) = Some ncb
          & val ncb = Arr2 (pinv D1 *m (pinv D1)^T)]
      & [/\ normalized_cov_beta (self st3) = Some ncb',
            oid ncb' != oid ncb
          & val ncb' = Arr2 (pinv D2 *m (pinv D2)^T)]].
Proof.
move=> ols d1E d2E yE.
have e1 := setattr_design_OLS (NF:=NF) Nsqrt ols d1E.
set st1 := Store _ _ in e1.
have ols1 : cls (self st1) = OLSModel by [].
have e2 := fit_matrix (NF:=NF) Nsqrt ols1 (erefl _) (erefl _) (erefl _) (erefl
    _) d1E
             (erefl _) yE.
set lfit := Results _ _ _ _ _ _ _ _ in e2; set st2 := Store _ _ in e2.
have ols2 : cls (self st2) = OLSModel by [].
have e3 := setattr_design_OLS (NF:=NF) Nsqrt ols2 d2E.
set st3 := Store _ _ in e3.
exists st1, lfit, st2, st3, (BoundMethod (@OLSModel_df_resid F)).
exists (Obj (next_id st).+1 (Arr2 (pinv D1 *m (pinv D1)^T))).
exists (Obj (next_id st).+2.+3.+1 (Arr2 (pinv D2 *m (pinv D2)^T))).
split; split=> //=.
by rewrite gtn_eqF // !ltnS; do 4!apply: leqW.
Qed.

(** C10, as the code has it: a fit result holds the method [df_resid] of
    the model, which answers with the degrees of freedom of the model at
    the time of the call, and the array object that was the normalized
    covariance of the model at the time of the fit.  After the design is
    changed, the method returns the new degrees of freedom, while the
    model is bound to a new covariance array and the result still holds
    the old one. *)
Theorem fit_result_aliasing (st : store) (d1 d2 y : obj) n p n' p' k
    (D1 : 'M[F]_(n, p)) (D2 : 'M[F]_(n', p')) (Y : 'M[F]_(n, k)) :
  cls (self st) = OLSModel ->
  val d1 = Arr2 D1 -> val d2 = Arr2 D2 -> val y = Arr2 Y ->
  exists st1 lfit st2 st3 bm (ncb ncb' : obj),
    [/\ [/\ setattr_design Nsqrt (PyArr d1) st = Ok (tt, st1),
            OLSModel_fit Nsqrt (PyArr y) st1 = Ok (lfit, st2)
          & setattr_design Nsqrt (PyArr d2) st2 = Ok (tt, st3)],
        [/\ lfit_df_resid lfit = Some bm,
            call bm st2 = Ok (df_of D1, st2)
          & call bm st3 = Ok (df_of D2, st3)],
        [/\ lfit_normalized_cov_beta lfit = Some ncb,
            normalized_cov_beta (self st2) = Some ncb
          & val ncb = Arr2 (pinv D1 *m (pinv D1)^T)]
      & [/\ normalized_cov_beta (self st3) = Some ncb',
            oid ncb' != oid ncb
          & val ncb' = Arr2 (pinv D2 *m (pinv D2)^T)]].
Proof. exact: redesign_after_fit. Qed.

End Aliasing.

(** ** The examples *)

Section PinvExamples.

Variable F : archiRealFieldType.

Lemma pinv0 m n : pinv (0 : 'M[F]_(m, n)) = 0.
Proof. by apply: pinv_eq; split; rewrite ?mulmx0 ?mul0mx ?trmx0. Qed.

Lemma pinv1 n : pinv (1%:M : 'M[F]_n) = 1%:M.
Proof. by apply: pinv_eq; split; rewrite ?mulmx1 ?trmx1. Qed.

(** The pseudo-inverse of a design whose columns are orthogonal and of the
    same length. *)
Lemma pinv_orthogonal m n (D : 'M[F]_(m, n)) (a : F) :
  a != 0 -> D^T *m D = a%:M -> pinv D = a^-1 *: D^T.
Proof.
move=> nz_a DtD; apply: pinv_eq.
have PD : a^-1 *: D^T *m D = 1%:M.
  by rewrite -scalemxAl DtD scale_scalar_mx mulVf.
split.
- by rewrite -mulmxA PD mulmx1.
- by rewrite PD mul1mx.
- by rewrite -scalemxAr linearZ /= trmx_mul trmxK.
- by rewrite PD trmx1.
Qed.

End PinvExamples.

Lemma sqrtq1 : sqrtq 1 = 1.
Proof. by apply/eqP. Qed.

Lemma scenario_gram : D0^T *m D0 = (2%:R)%:M.
Proof.
apply/matrixP=> i j; rewrite !mxE !big_ord_recl big_ord0 !mxE /=.
by case: i => [[|[|i]] //= ?]; case: j => [[|[|j]] //= ?]; apply/eqP.
Qed.

Lemma scenario_pinv : pinv D0 = 2%:R^-1 *: D0^T.
Proof. by apply: pinv_orthogonal scenario_gram. Qed.

Lemma scenario_rank : \rank D0 = 2.
Proof.
apply/eqP; rewrite -(eqr_nat rat) -mxtrace_pinv scenario_pinv.
by rewrite -scalemxAl scenario_gram scale_scalar_mx mxtrace_scalar mulVf.
Qed.

Lemma scenario_beta :
  (pinv D0 *m Y0^T)^T = \row_(j < 2) nth 0 [:: 2%:R; 4%:R] j.
Proof.
rewrite scenario_pinv; apply/matrixP=> i j.
rewrite !mxE !big_ord_recl big_ord0 !mxE /=.
by case: j => [[|[|j]] //= ?]; apply/eqP.
Qed.

Lemma scenario_resid :
  Y0 - (D0 *m ((pinv D0 *m Y0^T)^T)^T)^T
  = \row_(j < 4) nth 0 [:: -1; 1; - 2%:R; 2%:R] j.
Proof.
rewrite scenario_beta; apply/matrixP=> i j.
rewrite !mxE !big_ord_recl big_ord0 !mxE /=.
by case: j => [[|[|[|[|j]]]] //= ?]; apply/eqP.
Qed.

Lemma scenario_df : df_of D0 = 2.
Proof. by rewrite /df_of scenario_rank. Qed.

Lemma scenario_scale :
  (\sum_i (Y0 - (D0 *m ((pinv D0 *m Y0^T)^T)^T)^T) 0 i ^+ 2) / (df_of D0)%:~R
  = 5%:R.
Proof.
rewrite scenario_resid scenario_df !big_ord_recl big_ord0 !mxE /=.
by apply/eqP.
Qed.

Lemma fit_OLS_witness :
  exists lfit st1 st2,
    [/\ setattr_design sqrtq (PyArr scenario_design) scenario_model
        = Ok (tt, st1),
        OLSModel_fit sqrtq (PyArr scenario_response) st1 = Ok (lfit, st2),
        omap (@val rat) (lfit_beta lfit) = Some (array1 [:: 2%:R; 4%:R]),
        omap (@val rat) (lfit_resid lfit)
        = Some (array1 [:: -1; 1; - 2%:R; 2%:R])
      & omap (@val rat) (lfit_scale lfit) = Some (Arr0 5%:R)].
Proof.
have [st1 e1 [_ _ _ _ vec]] :=
  @fit_OLS rat nonfinite_rat sqrtq scenario_model scenario_design 4 2 D0 erefl
      erefl.
have [lfit [st2 [e2 b r s]]] := vec scenario_response Y0 erefl.
exists lfit, st1, st2; split=> //.
- by rewrite b scenario_beta.
- by rewrite r scenario_resid.
- by rewrite s ?scenario_scale // scenario_df.
Defined.

Lemma setup_invariant_witness :
  [/\ exists2 st', setattr_design sqrtq (PyArr scenario_design) scenario_model
                   = Ok (tt, st')
                 & setup_consistent (self st'),
      exists2 st', setattr_rho sqrtq 2%:R^-1 scenario_ar_model = Ok (tt, st')
                 & setup_consistent (self st')
    & exists2 st', setattr_weights sqrtq (PyArr scenario_weights)
                     scenario_wls_model = Ok (tt, st')
                 & setup_consistent (self st')].
Proof.
split.
- have [[_ ols] _] := @setup_invariant rat nonfinite_rat sqrtq scenario_model.
  exact: (ols scenario_design 4 2 D0 erefl erefl).
- have /= e := @setattr_rho_AR rat nonfinite_rat sqrtq scenario_ar_model 2%:R^-1
                 scenario_design 3 2 D0 erefl erefl erefl isT isT.
  set st' := Store _ _ in e; exists st' => //.
  have [_ inv] := @setup_invariant rat nonfinite_rat sqrtq scenario_ar_model.
  by have [_ _ rho_inv _ _] := inv st'; apply: rho_inv e.
- have nz (j : 'I_4) : sqrtq ((const_mx 1 : 'rV[rat]_4) 0 j) != 0.
    by rewrite mxE.
  have /= e := @setattr_weights_WLS rat nonfinite_rat sqrtq scenario_wls_model
                 scenario_design scenario_weights 4 2 D0 (const_mx 1)
                 erefl erefl erefl erefl nz.
  set st' := Store _ _ in e; exists st' => //.
  have [_ inv] := @setup_invariant rat nonfinite_rat sqrtq scenario_wls_model.
  by have [_ _ _ weights_inv _] := inv st'; apply: weights_inv e.
Defined.

Lemma sqrtq_squares (j : 'I_4) : sqrtq (W0 0 j) = j.+1%:R.
Proof. by rewrite !mxE; case: j => [[|[|[|[|j]]]] //= ?]; apply/eqP. Qed.

Lemma squares_gt0 (j : 'I_4) : 0 < W0 0 j.
Proof. by rewrite mxE; case: j => [[|[|[|[|j]]]] //= ?]. Qed.

Lemma sqrtq_squares_neq0 (j : 'I_4) : sqrtq (W0 0 j) != 0.
Proof. by rewrite sqrtq_squares pnatr_eq0. Qed.

(** With the correlation 3/5 the rows of the design of the scenario after
    the first are [(X[i] - 3/5 X[i-1]) / (4/5)]. *)
Lemma ARModel_whiten_spec_witness :
  exists W : 'M[rat]_(4, 2),
    ARModel_whiten sqrtq (PyArr scenario_design) scenario_ar35_model
    = Ok (PyArr (Obj 2 (Arr2 W)), Store (self scenario_ar35_model) 3)
    /\ Arr2 W = array2 [:: [:: 1; 0]; [:: 2%:R^-1; 0];
                           [:: - (3%:R / 4%:R); 5%:R / 4%:R];
                           [:: 0; 2%:R^-1]].
Proof.
have [mat _] :=
  @ARModel_whiten_spec rat nonfinite_rat sqrtq scenario_ar35_model
      scenario_design isT isT.
have [W [e row0 rows _]] := mat 3 2 D0 erefl.
exists W; split; first exact: e.
congr (Arr2 _); apply/matrixP=> i j; have [i0 | i_gt0] := posnP i.
  have -> : i = 0 by apply/val_inj.
  by rewrite row0 !mxE; case: j => [[|[|j]] //= _].
rewrite rows // !mxE inordK ?(leq_ltn_trans (leq_pred _)) //.
case: i i_gt0 => [[|[|[|[|i]]]] //= _ _];
  by case: j => [[|[|j]] //= _]; apply/eqP.
Defined.

(** With the weights 1, 4, 9 and 16 the rows of the design of the scenario
    are divided by 1, 2, 3 and 4. *)
Lemma WLSModel_whiten_spec_witness :
  whiten sqrtq (PyArr scenario_design) scenario_squares_model
  = Ok (PyArr (Obj 3 (array2 [:: [:: 1; 0]; [:: 2%:R^-1; 0];
                              [:: 0; 3%:R^-1]; [:: 0; 4%:R^-1]])),
        Store (self scenario_squares_model) 4).
Proof.
have [_ mat _ _] :=
  @WLSModel_whiten_spec rat nonfinite_rat sqrtq scenario_squares_model
      scenario_design
    scenario_squares 4 W0 erefl erefl erefl squares_gt0 sqrtq_squares_neq0.
rewrite (mat 2 D0 erefl); congr (Ok (PyArr (Obj _ (Arr2 _)), _)).
apply/matrixP=> i j; rewrite mxE sqrtq_squares !mxE.
by case: i => [[|[|[|[|i]]]] //= _]; case: j => [[|[|j]] //= _]; apply/eqP.
Defined.

Lemma contrastfromcols_shape_witness :
  exists2 C, contrastfromcols (Arr2 (0 : 'M[rat]_(4, 1))) (array2 scenario_D) None
             = Ok C & all_zero C.
Proof.
have [_ _ zero] := @contrastfromcols_shape rat 4 2 4 1 D0 0.
exact: zero erefl erefl.
Defined.

Lemma at_inord (F : archiRealFieldType) m n (A : 'M[F]_(m.+1, n.+1)) i j :
  (i < m.+1)%N -> (j < n.+1)%N -> at_ A i j = A (inord i) (inord j).
Proof. by move=> lti ltj; rewrite -(at_ord A) !inordK. Qed.

(** The F statistic of the contrast [1, -1] on the fit of the scenario:
    [(2 - 4)^2 / (1/2 + 1/2) / (1 * 5)]. *)
Lemma scenario_Fcontrast :
  RegressionModelResults_Fcontrast scenario_results scenario_contrast None
  = Ok (Contrast (Some (Arr0 (4%:R / 5%:R)))).
Proof.
rewrite /RegressionModelResults_Fcontrast /=.
set A := (X in X \in unitmx).
have AE : A = 1%:M.
  apply/matrixP=> i j; rewrite !ord1 /A.
  by rewrite !(mxE, at_ord, big_ord_recl, big_ord0) /=; apply/eqP.
rewrite /A in AE *; rewrite !AE unitmx1 invmx1 /=.
congr (Ok (Contrast (Some (Arr0 _)))).
rewrite !(mxE, big_ord_recl, big_ord0) /bidx /=.
rewrite !at_inord // !(mxE, big_ord_recl, big_ord0) /= !at_inord //.
rewrite !(mxE, big_ord_recl, big_ord0) /= ?inordK //=.
by rewrite (ord1 (inord 0)) eqxx /bump /= !at_inord // !mxE !inordK.
Qed.

Lemma Fcontrast_scale_invariant_witness :
  RegressionModelResults_Fcontrast scenario_results
    (scal 3%:R scenario_contrast) None
  = RegressionModelResults_Fcontrast scenario_results scenario_contrast None.
Proof.
apply: (@Fcontrast_scale_invariant rat scenario_results scenario_contrast
          (scal 3%:R scenario_contrast) 3%:R) => //.
exact: N_mul_scalar.
Defined.

Lemma sd_t_need_residuals_witness :
  RegressionModelResults_sd sqrtq (new_results rat) = Raise ValueError
  /\ RegressionModelResults_t sqrtq (module_globals rat) (new_results rat) None
     = Raise ValueError.
Proof.
have [sd_err t_err _ _] :=
  @sd_t_need_residuals rat sqrtq (module_globals rat) (new_results rat) None
    erefl.
by split; [exact: sd_err | exact: t_err].
Defined.

(** C7 fails on a contrast with three columns against a design with two:
    the concatenation raises. *)
Lemma isestimable_raises :
  isestimable (Arr2 (0 : 'M[rat]_(1, 3))) (Arr2 (1%:M : 'M[rat]_2))
  = Raise ValueError.
Proof. exact: isestimable_columns. Qed.

(** C10: the covariance a fit result holds is the one of the design it was
    fitted with. *)
Lemma fit_result_keeps_covariance :
  exists st1 lfit st2 st3,
    [/\ setattr_design sqrtq (PyArr alias_design1) alias_model = Ok (tt, st1),
        OLSModel_fit sqrtq (PyArr alias_response) st1 = Ok (lfit, st2),
        setattr_design sqrtq (PyArr alias_design2) st2 = Ok (tt, st3)
      & omap (@val rat) (lfit_normalized_cov_beta lfit)
        <> omap (@val rat) (normalized_cov_beta (self st3))].
Proof.
have [st1 [lfit [st2 [st3 [bm [ncb [ncb' [[e1 e2 e3] _ [l1 _ v1] [m3 _ v3]]]]]]]]] :=
  @redesign_after_fit rat nonfinite_rat sqrtq alias_model alias_design1
      alias_design2
    alias_response 1 1 1 1 1 1%:M 0 1%:M erefl erefl erefl erefl.
exists st1, lfit, st2, st3; split=> //.
rewrite l1 m3 /= v1 v3 pinv1 pinv0 mul0mx trmx1 mulmx1.
pose entry (a : option (ndarray rat)) : rat :=
  if a is Some (Arr2 _ _ A) then at_ A 0 0 else 0.
move/(congr1 entry); rewrite /entry (at_ord (1%:M : 'M[rat]_1) 0 0).
by rewrite (at_ord (0 : 'M[rat]_1) 0 0) !mxE.
Qed.

Lemma fit_result_aliasing_witness :
  exists st1 lfit st2 st3 bm,
    [/\ setattr_design sqrtq (PyArr alias_design1) alias_model = Ok (tt, st1),
        OLSModel_fit sqrtq (PyArr alias_response) st1 = Ok (lfit, st2),
        setattr_design sqrtq (PyArr alias_design2) st2 = Ok (tt, st3),
        lfit_df_resid lfit = Some bm
      & call bm st3 = Ok (df_of (0 : 'M[rat]_1), st3)].
Proof.
have [st1 [lfit [st2 [st3 [bm [ncb [ncb' [[e1 e2 e3] [b1 _ b3] _ _]]]]]]]] :=
  @fit_result_aliasing rat nonfinite_rat sqrtq alias_model alias_design1
      alias_design2
    alias_response 1 1 1 1 1 1%:M 0 1%:M erefl erefl erefl erefl.
by exists st1, lfit, st2, st3, bm.
Defined.

(** ** Further properties of the fit *)

Arguments pinv : simpl never.

Section FitTheory.

Variable F : archiRealFieldType.
Context {NF : nonfinite F}.
Variable Nsqrt : F -> F.
Notation ndarray := (ndarray F).
Notation obj := (obj F).
Notation value := (value F).
Notation model := (model F).
Notation store := (store F).
Notation results := (RegressionModelResults F).

(** The projector [A *m pinv A] leaves the columns of [A] as they are. *)
Lemma trmx_mul_proj m n (A : 'M[F]_(m, n)) : A^T *m (A *m pinv A) = A^T.
Proof.
have [a1 _ a3 _] := pinvP A.
by rewrite -[A *m pinv A]a3 -trmx_mul a1.
Qed.

Lemma pinv_row_full m n (A : 'M[F]_(m, n)) : \rank A = n -> pinv A *m A = 1%:M.
Proof.
move=> rA; have /row_fullP[B BA] : row_full A by rewrite /row_full rA.
have [a1 _ _ _] := pinvP A.
by rewrite -[pinv A *m A]mul1mx -BA -mulmxA (mulmxA A) a1.
Qed.

Lemma map2_mx_add m n (A B : 'M[F]_(m, n)) : map2_mx +%R A B = A + B.
Proof. by apply/matrixP=> i j; rewrite !mxE. Qed.

Lemma N_add22 m n (A B : 'M[F]_(m, n)) :
  N_add (Arr2 A) (Arr2 B) = Ok (Arr2 (A + B)).
Proof. by rewrite /N_add broadcast22 map2_mx_add. Qed.

(** X1: the residuals of an OLS fit are orthogonal to the columns of the
    design, of whatever rank: [N.dot(N.transpose(design), lfit.resid)] is
    the zero matrix. *)
Theorem fit_normal_equations (st : store) (d y : obj) n p k
    (D : 'M[F]_(n, p)) (Y : 'M[F]_(n, k)) :
  cls (self st) = OLSModel -> val d = Arr2 D -> val y = Arr2 Y ->
  exists st1 lfit st2 (resid : obj),
    [/\ setattr_design Nsqrt (PyArr d) st = Ok (tt, st1),
        OLSModel_fit Nsqrt (PyArr y) st1 = Ok (lfit, st2),
        lfit_resid lfit = Some resid
      & N_dot (N_transpose d) resid = Ok (Arr2 (0 : 'M[F]_(p, k)))].
Proof.
move=> ols dE yE.
have e1 := setattr_design_OLS (NF:=NF) Nsqrt ols dE; set st1 := Store _ _ in e1.
have ols1 : cls (self st1) = OLSModel by [].
have e2 := fit_matrix (NF:=NF) Nsqrt ols1 (erefl _) (erefl _) (erefl _) (erefl
    _) dE
             (erefl _) yE.
set lfit := Results _ _ _ _ _ _ _ _ in e2; set st2 := Store _ _ in e2.
exists st1, lfit, st2, (Obj (next_id st1).+1 (Arr2 (resid_of D (pinv D) Y))).
split=> //; rewrite dE /= N_dot22 /resid_of /beta_of.
by rewrite mulmxBr (mulmxA D (pinv D)) (mulmxA D^T) trmx_mul_proj subrr.
Qed.

(** X2: when the response is [D *m B] the residuals of an OLS fit are
    zero and the design times the coefficients is the response; when the
    columns of the design are moreover independent, the coefficients are
    [B]. *)
Theorem fit_exact (st : store) (d y : obj) n p k
    (D : 'M[F]_(n, p)) (B : 'M[F]_(p, k)) :
  cls (self st) = OLSModel -> val d = Arr2 D -> val y = Arr2 (D *m B) ->
  exists st1 lfit st2 (beta : obj),
    [/\ setattr_design Nsqrt (PyArr d) st = Ok (tt, st1),
        OLSModel_fit Nsqrt (PyArr y) st1 = Ok (lfit, st2),
        omap (@val F) (lfit_resid lfit) = Some (Arr2 (0 : 'M[F]_(n, k))),
        lfit_beta lfit = Some beta /\ N_dot d beta = Ok (Arr2 (D *m B))
      & \rank D = p -> val beta = Arr2 B].
Proof.
move=> ols dE yE.
have e1 := setattr_design_OLS (NF:=NF) Nsqrt ols dE; set st1 := Store _ _ in e1.
have ols1 : cls (self st1) = OLSModel by [].
have e2 := fit_matrix (NF:=NF) Nsqrt ols1 (erefl _) (erefl _) (erefl _) (erefl
    _) dE
             (erefl _) yE.
set lfit := Results _ _ _ _ _ _ _ _ in e2; set st2 := Store _ _ in e2.
have [a1 _ _ _] := pinvP D.
exists st1, lfit, st2, (Obj (next_id st1) (Arr2 (beta_of (pinv D) (D *m B)))).
split=> //=.
- by rewrite /resid_of /beta_of (mulmxA (pinv D)) (mulmxA D) (mulmxA D (pinv D)) a1 subrr.
- split=> //; rewrite dE N_dot22 /beta_of.
  by rewrite (mulmxA (pinv D)) (mulmxA D) (mulmxA D (pinv D)) a1.
- by move=> rD; rewrite /beta_of mulmxA pinv_row_full // mul1mx.
Qed.

(** X3: [predict] on the design of the fit, plus the residuals, is the
    response. *)
Theorem predict_plus_resid (st : store) (d y : obj) n p k
    (D : 'M[F]_(n, p)) (Y : 'M[F]_(n, k)) :
  cls (self st) = OLSModel -> val d = Arr2 D -> val y = Arr2 Y ->
  exists st1 lfit st2 (fitted : ndarray) (resid : obj),
    [/\ setattr_design Nsqrt (PyArr d) st = Ok (tt, st1),
        OLSModel_fit Nsqrt (PyArr y) st1 = Ok (lfit, st2),
        RegressionModelResults_predict lfit d = Ok fitted,
        lfit_resid lfit = Some resid
      & N_add fitted resid = Ok (val y)].
Proof.
move=> ols dE yE.
have e1 := setattr_design_OLS (NF:=NF) Nsqrt ols dE; set st1 := Store _ _ in e1.
have ols1 : cls (self st1) = OLSModel by [].
have e2 := fit_matrix (NF:=NF) Nsqrt ols1 (erefl _) (erefl _) (erefl _) (erefl
    _) dE
             (erefl _) yE.
set lfit := Results _ _ _ _ _ _ _ _ in e2; set st2 := Store _ _ in e2.
exists st1, lfit, st2, (Arr2 (D *m beta_of (pinv D) Y)).
exists (Obj (next_id st1).+1 (Arr2 (resid_of D (pinv D) Y))).
split=> //=.
- by rewrite /RegressionModelResults_predict /= dE N_dot22.
- by rewrite N_add22 yE /resid_of addrC subrK.
Qed.

(** X4: a response whose first axis has not the length of the first axis
    of the design makes [fit] raise the [ValueError] of [N.dot]. *)
Theorem fit_rows_mismatch (st : store) (d y : obj) n p n'
    (D : 'M[F]_(n, p)) :
  cls (self st) = OLSModel -> val d = Arr2 D ->
  shape_at y 0 = Ok n' -> n' != n ->
  exists2 st1, setattr_design Nsqrt (PyArr d) st = Ok (tt, st1)
             & OLSModel_fit Nsqrt (PyArr y) st1 = Raise ValueError.
Proof.
move=> ols dE sy ne.
have e1 := setattr_design_OLS (NF:=NF) Nsqrt ols dE; set st1 := Store _ _ in e1.
exists st1 => //.
rewrite /OLSModel_fit /bind /trait /= /ret /whiten /bind /trait /= ols.
rewrite /OLSModel_whiten /ret /getattr /= /new /=.
case: (val y) sy => [x|l v|l k' Y] //= [ln']; rewrite -ln' in ne.
- by rewrite /N_dot /recast (negPf ne).
- by rewrite /N_dot /recast (negPf ne).
Qed.

(** X5: on a model to which no whitened design was ever bound, [fit]
    calls [setup], which raises an [AttributeError]. *)
Theorem fit_without_design (st : store) (Y : value) :
  calc_beta (self st) = None -> wdesign (self st) = None ->
  OLSModel_fit Nsqrt Y st = Raise AttributeError.
Proof.
move=> cbs ws.
by rewrite /OLSModel_fit /bind /trait cbs /OLSModel_setup /bind /getattr ws.
Qed.

(** X6: the residual degrees of freedom [setup] stores for a whitened
    design of [m] rows are [m] minus its rank, between 0 and [m], and
    [df_resid] returns them. *)
Theorem df_resid_bounds (st : store) (w : obj) m n (W : 'M[F]_(m, n)) :
  val w = Arr2 W ->
  exists st' (df : int),
    [/\ setattr_wdesign (PyArr w) st = Ok (tt, st'),
        OLSModel_df_resid st' = Ok (df, st'),
        df = (m : int) - (\rank W : int)
      & 0 <= df <= m].
Proof.
move=> wE; rewrite (setattr_wdesign_ok _ wE).
set st' := Store _ _; exists st', (df_of W); split=> //.
rewrite /df_of subr_ge0 lez_nat rank_leq_row /=.
by rewrite lerBlDr lerDl.
Qed.

End FitTheory.

(** ** Fits of the AR(1) and of the weighted model *)

Section WhitenedFitTheory.

Variable F : archiRealFieldType.
Context {NF : nonfinite F}.
Variable Nsqrt : F -> F.
Notation ndarray := (ndarray F).
Notation obj := (obj F).
Notation value := (value F).
Notation model := (model F).
Notation store := (store F).
Notation results := (RegressionModelResults F).

(** [fit] once the whitening of the response is known: it allocated the
    arrays up to [j], and left the model as it was. *)
Lemma fit_whitened (st : store) (y z w cb ncb : obj) (df : int) (j : nat)
    n p k (B : 'M[F]_(p, n)) (W : 'M[F]_(n, p)) (Z : 'M[F]_(n, k)) :
  calc_beta (self st) = Some cb -> val cb = Arr2 B ->
  normalized_cov_beta (self st) = Some ncb ->
  wdesign (self st) = Some (PyArr w) -> val w = Arr2 W ->
  _df_resid (self st) = Some df ->
  whiten Nsqrt (PyArr y) st = Ok (PyArr z, Store (self st) j) ->
  val z = Arr2 Z ->
  OLSModel_fit Nsqrt (PyArr y) st
  = Ok (Results (Some (Obj j (Arr2 (beta_of B Z))))
                (Some ncb) (Some (BoundMethod (@OLSModel_df_resid F)))
                (Some (Obj j.+1 (Arr2 (resid_of W B Z))))
                (Some (Obj j.+2 (Arr1 (scale_of W B Z df))))
                (Some (PyArr z)) None None,
        Store (self st) j.+3).
Proof.
case: st => s i /= cbs cbE ncbs ws wE dfs wh zE.
rewrite /OLSModel_fit /bind /trait /= cbs /ret wh /=.
rewrite /getattr /= cbs /= cbE zE.
rewrite N_dot22 /= ncbs ws /= wE N_dot22 /= N_sub22 /=
  /lift /= /OLSModel_df_resid /getattr /= dfs.
rewrite /N_div /=.
congr (Ok (Results _ _ _ _ (Some (Obj _ (Arr1 _))) _ _ _, _)).
by apply/matrixP=> a b; rewrite !mxE; congr (divide _ _); apply: eq_bigr => c _;
   rewrite !mxE.
Qed.

Lemma setattr_design_AR (st : store) (d : obj) m k (A : 'M[F]_(m.+1, k)) :
  cls (self st) = ARModel -> val d = Arr2 A ->
  Nsqrt (1 - rho (self st) ^+ 2) != 0 ->
  let w := Obj (next_id st) (Arr2 (ar1 Nsqrt (rho (self st)) A)) in
  setattr_design Nsqrt (PyArr d) st
  = Ok (tt, Store (installed (ar1 Nsqrt (rho (self st)) A) (next_id st).+1
                     (set_wdesign (Some (PyArr w))
                        (set_design (PyArr d) (self st))))
                  (next_id st).+3).
Proof.
case: st => s i /= ar dE nz.
rewrite /setattr_design /bind /assign /_design_changed /bind /trait /= ar.
rewrite /ARModel__design_changed /bind /trait /= /whiten /bind /trait /= ar /=.
rewrite (ARModel_whiten_matrix _ dE) //=.
by rewrite (@setattr_wdesign_ok _ _ _ _ _ (ar1 Nsqrt (rho s) A)).
Qed.

Lemma setattr_design_WLS (st : store) (d w : obj) m k
    (A : 'M[F]_(m, k)) (wv : 'rV[F]_m) :
  cls (self st) = WLSModel -> weights (self st) = PyArr w -> val w = Arr1 wv ->
  val d = Arr2 A -> (forall j, Nsqrt (wv 0 j) != 0) ->
  let wd := Obj (next_id st) (Arr2 (weighted Nsqrt wv A)) in
  setattr_design Nsqrt (PyArr d) st
  = Ok (tt, Store (installed (weighted Nsqrt wv A) (next_id st).+1
                     (set_wdesign (Some (PyArr wd))
                        (set_design (PyArr d) (self st))))
                  (next_id st).+3).
Proof.
case: st => s i /= wls ws wE dE nz.
rewrite /setattr_design /bind /assign /_design_changed /bind /trait /= wls.
rewrite /ARModel__design_changed /bind /trait /= /whiten /bind /trait /= wls /=.
rewrite (WLSModel_whiten_matrix dE _ wE nz) //=.
by rewrite (@setattr_wdesign_ok _ _ _ _ _ (weighted Nsqrt wv A)).
Qed.

(** X7: on an AR(1) model with a correlation [r] of square less than 1,
    for which the square root of [1 - r^2] is not 0, the design and the
    response are both put through the AR(1) transform before the least
    squares: the coefficients are the pseudo-inverse of the whitened
    design times the whitened response, the residuals are those of the
    whitened response, and [Z] on the result is the whitened response.
    With a correlation of 0, and a square root that is exact at 1, the
    coefficients are those of the ordinary fit. *)
Theorem fit_AR (st : store) (d y : obj) m p k
    (D : 'M[F]_(m.+1, p)) (Y : 'M[F]_(m.+1, k)) :
  cls (self st) = ARModel -> val d = Arr2 D -> val y = Arr2 Y ->
  rho (self st) ^+ 2 < 1 -> Nsqrt (1 - rho (self st) ^+ 2) != 0 ->
  let W := ar1 Nsqrt (rho (self st)) D in
  let Z := ar1 Nsqrt (rho (self st)) Y in
  exists st1 lfit st2,
    [/\ setattr_design Nsqrt (PyArr d) st = Ok (tt, st1),
        OLSModel_fit Nsqrt (PyArr y) st1 = Ok (lfit, st2)
      & [/\ omap (@val F) (lfit_beta lfit) = Some (Arr2 (pinv W *m Z)),
            omap (@val F) (lfit_resid lfit)
            = Some (Arr2 (Z - W *m (pinv W *m Z))),
            lfit_Z lfit = Some (PyArr (Obj (next_id st1) (Arr2 Z)))
          & rho (self st) = 0 -> Nsqrt 1 = 1 ->
            omap (@val F) (lfit_beta lfit) = Some (Arr2 (pinv D *m Y))]].
Proof.
move=> ar dE yE _ nz W Z.
have /= e1 := setattr_design_AR ar dE nz; set st1 := Store _ _ in e1.
have ar1' : cls (self st1) = ARModel by [].
have wh : whiten Nsqrt (PyArr y) st1
          = Ok (PyArr (Obj (next_id st1) (Arr2 Z)),
                Store (self st1) (next_id st1).+1).
  by rewrite /whiten /bind /trait ar1' (ARModel_whiten_matrix _ yE).
have e2 := fit_whitened (erefl _ : calc_beta (self st1) = Some _) (erefl _)
             (erefl _) (erefl _) (erefl _) (erefl _) wh (erefl _).
set lfit := Results _ _ _ _ _ _ _ _ in e2; set st2 := Store _ _ in e2.
exists st1, lfit, st2; split=> //; split=> //= r0 sqrt1.
by rewrite /beta_of /W /Z r0 !ar1_0.
Qed.

(** X8: on a weighted model with positive weights, whose square roots are
    not 0, the design and the response are both divided, row by row, by
    the square roots of the weights before the least squares, and [Z] on
    the result is the weighted response. *)
Theorem fit_WLS (st : store) (d y w : obj) n p k
    (D : 'M[F]_(n, p)) (Y : 'M[F]_(n, k)) (wv : 'rV[F]_n) :
  cls (self st) = WLSModel -> weights (self st) = PyArr w -> val w = Arr1 wv ->
  val d = Arr2 D -> val y = Arr2 Y ->
  (forall j, 0 < wv 0 j) -> (forall j, Nsqrt (wv 0 j) != 0) ->
  let W := weighted Nsqrt wv D in
  let Z := weighted Nsqrt wv Y in
  exists st1 lfit st2,
    [/\ setattr_design Nsqrt (PyArr d) st = Ok (tt, st1),
        OLSModel_fit Nsqrt (PyArr y) st1 = Ok (lfit, st2),
        omap (@val F) (lfit_beta lfit) = Some (Arr2 (pinv W *m Z)),
        omap (@val F) (lfit_resid lfit)
        = Some (Arr2 (Z - W *m (pinv W *m Z)))
      & lfit_Z lfit = Some (PyArr (Obj (next_id st1) (Arr2 Z)))].
Proof.
move=> wls ws wE dE yE _ nz W Z.
have /= e1 := setattr_design_WLS wls ws wE dE nz; set st1 := Store _ _ in e1.
have wls1 : cls (self st1) = WLSModel by [].
have ws1 : weights (self st1) = PyArr w by [].
have wh : whiten Nsqrt (PyArr y) st1
          = Ok (PyArr (Obj (next_id st1) (Arr2 Z)),
                Store (self st1) (next_id st1).+1).
  by rewrite /whiten /bind /trait wls1 (WLSModel_whiten_matrix yE ws1 wE nz).
have e2 := fit_whitened (erefl _ : calc_beta (self st1) = Some _) (erefl _)
             (erefl _) (erefl _) (erefl _) (erefl _) wh (erefl _).
set lfit := Results _ _ _ _ _ _ _ _ in e2; set st2 := Store _ _ in e2.
by exists st1, lfit, st2; split.
Qed.

(** X9: [ARModel.whiten] indexes its argument at 0: an array without a
    first row, 0-d or with a first axis of length 0, raises an
    [IndexError]. *)
Theorem ARModel_whiten_no_rows (st : store) (x : obj) :
  head 0%N (shape x) = 0%N ->
  ARModel_whiten Nsqrt (PyArr x) st = Raise IndexError.
Proof.
case: st => s i; case xE: (val x) => [a|n v|m n A] /= sh0.
- by rewrite /ARModel_whiten /bind /trait /lift /= xE.
- move: v xE; rewrite sh0 => v xE.
  by rewrite /ARModel_whiten /bind /trait /lift /= xE.
- move: A xE; rewrite sh0 => A xE.
  by rewrite /ARModel_whiten /bind /trait /lift /= xE.
Qed.

End WhitenedFitTheory.

(** ** The lengths of the weights *)

Section WeightsTheory.

Variable F : archiRealFieldType.
Context {NF : nonfinite F}.
Variable Nsqrt : F -> F.
Notation ndarray := (ndarray F).
Notation obj := (obj F).
Notation value := (value F).
Notation store := (store F).

Lemma whiten_columns_raise (X c : ndarray) e js :
  foldl (fun acc i => v <- acc ;;
                      col <- getcol X i ;;
                      q <- N_div col c ;;
                      setcol v i q)
        (Raise e) js = Raise e.
Proof. by elim: js. Qed.

Lemma whiten_columns_first (X c v : ndarray) k e :
  (col <- getcol X 0 ;; q <- N_div col c ;; setcol v 0 q) = Raise e ->
  WLSModel_whiten_columns X c v k.+1 = Raise e.
Proof.
by move=> H; rewrite /WLSModel_whiten_columns /= H whiten_columns_raise.
Qed.

Lemma bdim_mismatch m l : m != l -> m != 1%N -> l != 1%N -> bdim m l = None.
Proof. by rewrite /bdim => /negPf-> /negPf-> /negPf->. Qed.

(** The loop of [WLSModel.whiten] on the columns below [t], when there is
    one weight. *)
Lemma whiten_columns_single m k (A V : 'M[F]_(m, k)) (c : 'rV[F]_1) t :
  c 0 0 != 0 -> (t <= k)%N ->
  foldl (fun acc i => v <- acc ;;
                      col <- getcol (Arr2 A) i ;;
                      q <- N_div col (Arr1 c) ;;
                      setcol v i q)
        (Ok (Arr2 V)) (iota 0 t)
  = Ok (Arr2 (\matrix_(a, b) if (b < t)%N then A a b / c 0 0 else V a b)).
Proof.
move=> nz; elim: t => [_ | t IH lt_tk].
  by congr (Ok (Arr2 _)); apply/matrixP=> a b; rewrite mxE.
rewrite -[t.+1]addn1 iotaD foldl_cat add0n IH 1?ltnW //= lt_tk /=.
have -> : N_div (Arr1 (\row_(r < m) at_ A r t)) (Arr1 c)
          = Ok (Arr1 (\row_(r < m) (at_ A r t / c 0 0))).
  have bd : bdim m 1 = Some m by rewrite /bdim; case: (m == 1%N).
  rewrite /N_div /broadcast bd; congr (Ok (Arr1 _)).
  apply/matrixP=> a b; rewrite !mxE bidx_ord (at_ord _ 0 b) mxE.
  by rewrite /bidx eqxx (at_ord c 0 0) /divide (negPf nz).
rewrite /= bdimxx eqxx; congr (Ok (Arr2 _)).
apply/matrixP=> a b; rewrite !mxE addn1 [in RHS]ltnS [in RHS]leq_eqVlt.
case: eqP => [bt | _] /=; last by [].
by rewrite bidx_ord (at_ord _ 0 a) !mxE -bt at_ord.
Qed.

(** X10: the lengths [WLSModel.whiten] accepts for the weights.  A 0-d
    input is answered with [None]; weights whose length is neither 1 nor
    the length of the first axis of the input (itself not 1, for a 1-D
    input) raise the [ValueError] of the broadcast; a single positive
    weight, whose square root is not 0, divides every row by it. *)
Theorem WLSModel_whiten_shapes (st : store) (x w : obj) l (wv : 'rV[F]_l) :
  weights (self st) = PyArr w -> val w = Arr1 wv ->
  [/\ ndim x = 0%N -> WLSModel_whiten Nsqrt (PyArr x) st = Ok (PyNone F, st),
      forall n (v : 'rV[F]_n), val x = Arr1 v ->
        n != l -> n != 1%N -> l != 1%N ->
        WLSModel_whiten Nsqrt (PyArr x) st = Raise ValueError,
      forall m k (A : 'M[F]_(m, k.+1)), val x = Arr2 A ->
        m != l -> l != 1%N ->
        WLSModel_whiten Nsqrt (PyArr x) st = Raise ValueError
    & forall m k (A : 'M[F]_(m, k)), val x = Arr2 A -> l = 1%N ->
        0 < at_ wv 0 0 -> Nsqrt (at_ wv 0 0) != 0 ->
        WLSModel_whiten Nsqrt (PyArr x) st
        = Ok (PyArr (Obj (next_id st)
                         (Arr2 (map_mx (fun a => a / Nsqrt (at_ wv 0 0)) A))),
              Store (self st) (next_id st).+1)].
Proof.
case: st => s i /= ws wE; split.
- by rewrite /WLSModel_whiten => ->.
- move=> n v xE nl n1 l1.
  rewrite /WLSModel_whiten xE /= /bind /trait /= ws /= wE /=.
  by rewrite /N_div /broadcast bdim_mismatch.
- move=> m k A xE ml l1.
  rewrite /WLSModel_whiten xE /= /bind /trait /= ws /lift /= wE /=.
  rewrite (@whiten_columns_first _ _ _ _ ValueError) //=.
  rewrite /N_div /broadcast.
  case: (altP (m =P 1%N)) => [m1 | m1]; last by rewrite bdim_mismatch.
  have bd : bdim m l = Some l by rewrite /bdim (negPf ml) m1 eqxx.
  have bd' : (bdim l m == Some m) = false.
    rewrite /bdim [l == m]eq_sym (negPf ml) (negPf l1) m1 eqxx.
    by apply/negbTE; apply: contra l1 => /eqP[->].
  by rewrite bd /= bd'.
- move=> m k A xE l1; move: wv wE; rewrite l1 => wv wE _ nz.
  rewrite /WLSModel_whiten xE /= /bind /trait /= ws /lift /= wE /=.
  rewrite /WLSModel_whiten_columns whiten_columns_single //=.
    by rewrite mxE -(at_ord wv 0 0).
  congr (Ok (PyArr (Obj _ (Arr2 _)), _)).
  by apply/matrixP=> a b; rewrite !mxE ltn_ord (at_ord wv 0 0).
Qed.

End WeightsTheory.

(** ** The statistics of a fit result *)

Section ResultsTheory.

Variable F : archiRealFieldType.
Variable Nsqrt : F -> F.
Notation ndarray := (ndarray F).
Notation obj := (obj F).
Notation results := (RegressionModelResults F).

(** X11: in the namespace of the module, which binds no [_beta], [t]
    returns for no result and no column; on a result that has its
    residuals and its scale, or a cached standard deviation, what it
    raises is the [NameError]. *)
Theorem t_unbound_beta (r : results) (column : option nat) :
  (forall a, RegressionModelResults_t Nsqrt (module_globals F) r column
             <> Ok a)
  /\ (isSome (_sd r) || isSome (lfit_resid r) && isSome (lfit_scale r) ->
      RegressionModelResults_t Nsqrt (module_globals F) r column
      = Raise NameError).
Proof.
rewrite /RegressionModelResults_t /RegressionModelResults_sd.
case: (_sd r) => [sd|] /=.
  by case: column.
case: (lfit_resid r) => [resid|] //=.
case: (lfit_scale r) => [scale|] //=.
by case: column.
Qed.

(** X12: [norm_resid] raises the [ValueError] on a result without
    residuals, and in the namespace of the module, which binds no [_sd],
    it returns for no result: on a result of [fit] it raises a
    [NameError]. *)
Theorem norm_resid_unbound_sd (r : results) :
  [/\ lfit_resid r = None ->
        RegressionModelResults_norm_resid Nsqrt None r = Raise ValueError,
      forall a, RegressionModelResults_norm_resid Nsqrt None r <> Ok a
    & isSome (lfit_resid r) -> isSome (lfit_scale r) ->
        RegressionModelResults_norm_resid Nsqrt None r = Raise NameError].
Proof.
rewrite /RegressionModelResults_norm_resid /RegressionModelResults_sd.
case: (lfit_resid r) => [resid|] //=.
case: (_sd r) => [sd|] /=; first by [].
by case: (lfit_scale r).
Qed.

(** X13: [cov_beta] for a column of the covariance is [cov_beta] for the
    contrast that selects this column, a 1-D array with a 1 at this index
    and 0 elsewhere; an index past the last column raises an
    [IndexError]. *)
Theorem cov_beta_column (r : results) (ncb : obj) p (C : 'M[F]_p)
    (scale : option ndarray) :
  lfit_normalized_cov_beta r = Some ncb -> val ncb = Arr2 C ->
  (forall c : 'I_p,
     RegressionModelResults_cov_beta r None (Some (c : nat)) scale None
     = RegressionModelResults_cov_beta r (Some (Arr1 (delta_mx 0 c))) None
         scale None)
  /\ (forall c : nat, (p <= c)%N ->
       isSome scale || isSome (lfit_scale r) ->
       RegressionModelResults_cov_beta r None (Some c) scale None
       = Raise IndexError).
Proof.
move=> ncbs ncbE; rewrite /RegressionModelResults_cov_beta ncbs /=.
split=> [c | c le_pc has_scale].
  have -> : (s <- (if scale is Some s then Ok s
                   else s <- attr (lfit_scale r) ;; Ok (val s)) ;;
             row <- getitem ncb c ;;
             x <- getitem row c ;;
             v <- N_mul x s ;; Ok (Some v))
          = (s <- (if scale is Some s then Ok s
                   else s <- attr (lfit_scale r) ;; Ok (val s)) ;;
             v <- N_mul (Arr0 (C c c)) s ;; Ok (Some v)).
    case: (if scale is Some s then _ else _) => //= s.
    by rewrite ncbE /= ltn_ord /= ltn_ord /= (at_ord _ 0 c) mxE at_ord.
  case: (if scale is Some s then _ else _) => //= s.
  rewrite ncbE N_dot21 /= /N_dot recast_id /=.
  congr (v <- N_mul (Arr0 _) s ;; Ok (Some v)).
  by rewrite trmxK trmx_delta -colE -rowE !mxE.
have -> : (if scale is Some s then Ok s
           else s <- attr (lfit_scale r) ;; Ok (val s))
          = Ok (if scale is Some s then s
                else if lfit_scale r is Some s then val s else Arr0 0).
  by case: scale has_scale => //=; case: (lfit_scale r).
by rewrite /= ncbE /= ltnNge le_pc.
Qed.

Lemma map_mx_mulr m n (T : 'M[F]_(m, n)) (s : F) :
  map_mx ( *%R^~ s) T = s *: T.
Proof. by apply/matrixP=> i j; rewrite !mxE mulrC. Qed.

(** X14: for matrices with as many columns as the covariance of the
    result, and a scalar scale, [cov_beta] returns [scale * matrix *
    covariance * other^T]; when the covariance is symmetric, as the one
    [fit] stores is, exchanging [matrix] and [other] transposes it, and
    with [other] left out it is a symmetric matrix. *)
Theorem cov_beta_transpose (r : results) (ncb : obj) p q q' (C : 'M[F]_p)
    (M : 'M[F]_(q, p)) (O : 'M[F]_(q', p)) (s : F) :
  lfit_normalized_cov_beta r = Some ncb -> val ncb = Arr2 C -> C^T = C ->
  let X := s *: (M *m C *m O^T) in
  [/\ RegressionModelResults_cov_beta r (Some (Arr2 M)) None (Some (Arr0 s))
        (Some (Arr2 O)) = Ok (Some (Arr2 X)),
      RegressionModelResults_cov_beta r (Some (Arr2 O)) None (Some (Arr0 s))
        (Some (Arr2 M)) = Ok (Some (Arr2 X^T))
    & exists2 V : 'M[F]_q,
        RegressionModelResults_cov_beta r (Some (Arr2 M)) None
          (Some (Arr0 s)) None = Ok (Some (Arr2 V))
        & V^T = V].
Proof.
move=> ncbs ncbE symC X.
have cov a b (A : 'M[F]_(a, p)) (B : 'M[F]_(b, p)) :
    RegressionModelResults_cov_beta r (Some (Arr2 A)) None (Some (Arr0 s))
      (Some (Arr2 B)) = Ok (Some (Arr2 (s *: (A *m C *m B^T)))).
  rewrite /RegressionModelResults_cov_beta ncbs /= ncbE N_dot22 /= N_dot22 /=.
  by rewrite map_mx_mulr mulmxA.
have tr a b (A : 'M[F]_(a, p)) (B : 'M[F]_(b, p)) :
    (s *: (A *m C *m B^T))^T = s *: (B *m C *m A^T).
  by rewrite linearZ /= !trmx_mul trmxK symC mulmxA.
split; rewrite ?cov ?tr //.
exists (s *: (M *m C *m M^T)); last exact: tr.
rewrite /RegressionModelResults_cov_beta ncbs /= ncbE N_dot22 /= N_dot22 /=.
by rewrite map_mx_mulr mulmxA.
Qed.

End ResultsTheory.

(** ** The contrasts of a fit result *)

Section ContrastStatistics.

Variable F : archiRealFieldType.
Variable Nsqrt : F -> F.
Notation ndarray := (ndarray F).
Notation obj := (obj F).
Notation results := (RegressionModelResults F).

(** X15: [Tcontrast] computes the t statistic from the attribute [sd] of
    the object it returns, which it assigns only when its argument [sd] is
    true: called with [sd=False] and the default [t=True] it returns for
    no result, and raises an [AttributeError] once the effect is computed.
    On a result without residuals and without a cached standard deviation
    it raises the [ValueError] of [sd]. *)
Theorem Tcontrast_needs_sd (r : results) (M : ndarray) :
  [/\ forall a, RegressionModelResults_Tcontrast Nsqrt r M true false <> Ok a,
      forall (beta : obj) e,
        isSome (_sd r) || isSome (lfit_resid r) && isSome (lfit_scale r) ->
        lfit_beta r = Some beta -> N_dot M beta = Ok e ->
        RegressionModelResults_Tcontrast Nsqrt r M true false
        = Raise AttributeError
    & _sd r = None -> lfit_resid r = None ->
      forall t sd, RegressionModelResults_Tcontrast Nsqrt r M t sd
                   = Raise ValueError].
Proof.
rewrite /RegressionModelResults_Tcontrast /RegressionModelResults_sd.
split.
- move=> a; case: (_sd r) => [s|] /=.
    by case: (lfit_beta r) => [beta|] //=; case: (N_dot M beta).
  case: (lfit_resid r) => [resid|] //=; case: (lfit_scale r) => [scale|] //=.
  by case: (lfit_beta r) => [beta|] //=; case: (N_dot M beta).
- move=> beta e has_sd bs effect; case: (_sd r) has_sd => [s|] /=.
    by rewrite bs /= effect.
  case: (lfit_resid r) => [resid|] //=; case: (lfit_scale r) => [scale|] //=.
  by rewrite bs /= effect.
- by move=> -> ->.
Qed.

(** X16: the standard deviation [Tcontrast] reports for a 1-D contrast
    [m] on the fit of a 1-D response counts the scale twice: [cov_beta]
    multiplies the variance [m C m^T] of the contrast by the scale, and
    the square root of the product is multiplied by [_sd], the square root
    of the scale. *)
Theorem Tcontrast_scale_twice (r : results) (beta ncb resid scale : obj) p
    (b m : 'rV[F]_p) (C : 'M[F]_p) (s : F) :
  _sd r = None -> lfit_resid r = Some resid ->
  lfit_scale r = Some scale -> val scale = Arr0 s ->
  lfit_beta r = Some beta -> val beta = Arr1 b ->
  lfit_normalized_cov_beta r = Some ncb -> val ncb = Arr2 C ->
  RegressionModelResults_Tcontrast Nsqrt r (Arr1 m) false true
  = Ok (TContrast (Some (Arr0 ((m *m b^T) 0 0)))
                  (Some (Arr0 (Nsqrt ((m *m C *m m^T) 0 0 * s) * Nsqrt s)))
                  None,
        set__sd (Some (Arr0 (Nsqrt s))) r).
Proof.
move=> no_sd rs ss sE bs bE ncbs ncbE.
rewrite /RegressionModelResults_Tcontrast /RegressionModelResults_sd.
rewrite no_sd rs ss /= bs /= bE /N_dot recast_id /=.
rewrite /RegressionModelResults_cov_beta /= ss /= ncbs /= ncbE sE.
rewrite N_dot21 /= /N_dot recast_id /=.
by rewrite trmxK mulmxA.
Qed.

Lemma map2_mx_mul m n (A B : 'M[F]_(m, n)) :
  map2_mx *%R A B = \matrix_(i, j) (A i j * B i j).
Proof. by apply/matrixP=> i j; rewrite !mxE. Qed.

Lemma map_mx_mulr1 m n (T : 'M[F]_(m, n)) : map_mx ( *%R^~ 1) T = T.
Proof. by apply/matrixP=> i j; rewrite !mxE mulr1. Qed.

(** X17: on the fit of a 1-D response, with coefficients [b], covariance
    [C] and scale [s], the F contrast of a matrix [M] of [q >= 1] rows
    raises a [LinAlgError] exactly when [M C M^T] is singular, and is
    otherwise the quadratic form of [M b] in the inverse of [M C M^T],
    times the reciprocal of [q * s], which [recipr] makes 0 when [q * s]
    is 0. *)
Theorem Fcontrast_singular (r : results) (beta ncb scale : obj) p q
    (b : 'rV[F]_p) (C : 'M[F]_p) (s : F) (M : 'M[F]_(q.+1, p)) :
  lfit_beta r = Some beta -> val beta = Arr1 b ->
  lfit_normalized_cov_beta r = Some ncb -> val ncb = Arr2 C ->
  lfit_scale r = Some scale -> val scale = Arr0 s ->
  let A := M *m C *m M^T in
  let cb := (M *m b^T)^T in
  let den := q.+1%:R * s in
  RegressionModelResults_Fcontrast r (Arr2 M) None
  = if A \in unitmx
    then Ok (Contrast (Some (Arr0 ((cb *m invmx A *m cb^T) 0 0
                                   * (if den == 0 then 0 else den^-1)))))
    else Raise LinAlgError.
Proof.
move=> bs bE ncbs ncbE ss sE /=.
rewrite /RegressionModelResults_Fcontrast bs /= bE N_dot21 /=.
rewrite /RegressionModelResults_cov_beta /= ncbs /= ncbE N_dot22 /= N_dot22 /=.
rewrite map_mx_mulr1 recast_id mulmxA.
case: ifP => // uA.
rewrite /= N_dot21 /= /N_mul broadcast11 /= ss /= sE /=.
have -> : ((q.+1 : int)%:~R : F) = q.+1%:R by rewrite -pmulrn.
congr (Ok (Contrast (Some (Arr0 (_ * _))))).
rewrite !trmxK -(mulmxA (M *m b^T)^T (invmx _)) [RHS]mxE.
apply: eq_bigr => j _.
by rewrite [LHS]mxE mulrC; congr (_ * _); rewrite mxE.
Qed.

Lemma N_add_reduce_scal (c : F) (a : ndarray) :
  N_add_reduce (scal c a) = rmap (scal c) (N_add_reduce a).
Proof.
case: a => [x|n v|m n A] //=.
- congr (Ok (Arr0 _)); rewrite mulr_sumr.
  by apply: eq_bigr => j _; rewrite mxE.
- congr (Ok (Arr1 _)); apply/matrixP=> i j; rewrite !mxE mulr_sumr.
  by apply: eq_bigr => k _; rewrite mxE.
Qed.

(** X18: with an inverse covariance supplied by the caller, the F
    contrast is not invariant under a rescaling of the contrast matrix:
    for [c * M] it is [c^2] times the one for [M], or the same
    exception. *)
Theorem Fcontrast_invcov_quadratic (r : results) (M cM invcov : ndarray)
    (c : F) :
  N_mul (scalar c) M = Ok cM ->
  RegressionModelResults_Fcontrast r cM (Some invcov)
  = rmap (fun res => Contrast (omap (scal (c * c)) (contrast_F res)))
         (RegressionModelResults_Fcontrast r M (Some invcov)).
Proof.
rewrite N_mul_scalar => -[<-].
rewrite /RegressionModelResults_Fcontrast.
case: (lfit_beta r) => [beta|] //=.
rewrite N_dot_scall; case: (N_dot M beta) => [cbeta|e] //=.
rewrite shape_scal; case: (shape_at M 0) => [q|e] //=.
rewrite N_dot_scalr; case: (N_dot invcov cbeta) => [ic|e] //=.
rewrite N_mul_scall N_mul_scalr; case: (N_mul ic cbeta) => [prod|e] //=.
rewrite scal_scal N_add_reduce_scal; case: (N_add_reduce prod) => [num|e] //=.
case: (lfit_scale r) => [scale|] //=.
case: (N_mul (py_int F q) scale) => [den|e] //=.
by rewrite N_mul_scall; case: (N_mul num (recipr den)).
Qed.

End ContrastStatistics.

(** ** Estimable contrasts *)

Section EstimableTheory.

Variable F : archiRealFieldType.
Notation ndarray := (ndarray F).

(** [isestimable] on two matrices with the same number of columns decides
    whether the rows of the first are combinations of the rows of the
    second. *)
Lemma isestimable_submx q n p (C : 'M[F]_(q, p)) (D : 'M[F]_(n, p)) :
  isestimable (Arr2 C) (Arr2 D) = Ok (C <= D)%MS.
Proof.
have -> : isestimable (Arr2 C) (Arr2 D) = Ok (\rank (col_mx C D) == \rank D).
  by rewrite /isestimable N_concatenate22 /=; case: eqP.
congr (Ok _); have [<- _] := addsmxE C D; rewrite eq_sym.
have /mxrank_leqif_eq/leqifP := addsmxSr C D.
rewrite addsmx_sub submx_refl andbT addsmxSr /=.
by case: ifP => [_ /eqP-> | _ /ltn_eqF->] //; rewrite eqxx.
Qed.

(** The rows of the transpose of the pseudo-inverse of [D] are
    combinations of the rows of [D]. *)
Lemma pinv_tr_submx n p (D : 'M[F]_(n, p)) : ((pinv D)^T <= D)%MS.
Proof.
have [_ p2 _ p4] := pinvP D.
have -> : (pinv D)^T = (pinv D)^T *m pinv D *m D.
  by rewrite -{1}p2 trmx_mul -mulmxA -{1}p4 trmxK mulmxA.
exact: submxMl.
Qed.

(** X19: for a contrast and a design with the same number of columns,
    [isestimable] answers whether every row of the contrast is a linear
    combination of the rows of the design.  So every product [A *m D] is
    estimable, and every contrast is when the columns of the design are
    independent. *)
Theorem isestimable_row_space q n p (C : 'M[F]_(q, p)) (D : 'M[F]_(n, p)) :
  [/\ isestimable (Arr2 C) (Arr2 D) = Ok (C <= D)%MS,
      forall A : 'M[F]_(q, n), isestimable (Arr2 (A *m D)) (Arr2 D) = Ok true
    & \rank D = p -> isestimable (Arr2 C) (Arr2 D) = Ok true].
Proof.
split; first exact: isestimable_submx.
  by move=> A; rewrite isestimable_submx submxMl.
move=> rD; rewrite isestimable_submx.
have /row_fullP[B BD] : row_full D by rewrite /row_full rD.
by rewrite -[C]mulmx1 -BD mulmxA submxMl.
Qed.

Lemma rank_cV n (x : 'cV[F]_n) : \rank x = (x != 0).
Proof. by rewrite -mxrank_tr rank_rV trmx_eq0. Qed.

(** X20: a candidate [T] of one column, whose projection on the columns of
    a design of [p <> 1] columns is not zero, makes [contrastfromcols]
    return a 1-D array, the one row of the contrast squeezed; and
    [isestimable] raises a [ValueError] on what was returned, which it
    cannot stack on the 2-D design. *)
Theorem contrast_of_one_column n p (D : 'M[F]_(n, p)) (T : 'cV[F]_n) :
  p != 1%N -> D *m (pinv D *m T) != 0 ->
  contrastfromcols (Arr2 T) (Arr2 D) None = Ok (Arr1 (pinv D *m T)^T)
  /\ isestimable (Arr1 (pinv D *m T)^T) (Arr2 D) = Raise ValueError.
Proof.
move=> p1 nz; split=> //.
rewrite contrastfromcols_rows /contrast_of trmxK rank_cV nz /=.
rewrite /N_squeeze /= (negPf p1) /=; congr (Ok (Arr1 _)).
by apply/matrixP=> i j; rewrite mxE ord1 (at_ord _ 0 j).
Qed.

(** X21: a candidate [T] with as many rows as the design and [b >= 2]
    columns, whose projection on the columns of the design has independent
    columns, gives the contrast [(pinv D *m T)^T], of [b] rows, and
    [isestimable] accepts it. *)
Theorem contrastfromcols_estimable n p b (D : 'M[F]_(n, p)) (T : 'M[F]_(n, b)) :
  \rank (D *m (pinv D *m T)) = b -> (1 < b)%N ->
  contrastfromcols (Arr2 T) (Arr2 D) None = Ok (Arr2 (pinv D *m T)^T)
  /\ isestimable (Arr2 (pinv D *m T)^T) (Arr2 D) = Ok true.
Proof.
move=> rTp b_gt1.
have p_gt1 : (1 < p)%N.
  apply: leq_trans b_gt1 _; rewrite -rTp.
  exact: leq_trans (mxrankM_maxl _ _) (rank_leq_col _).
split.
  rewrite contrastfromcols_rows /contrast_of trmxK rTp eqxx /=.
  by rewrite /N_squeeze !gtn_eqF.
by rewrite isestimable_submx trmx_mul
     (submx_trans (submxMl _ _) (pinv_tr_submx D)).
Qed.

(** X22: for a design with at least one column, whose columns are
    independent, [contrastfromcols(D, D)] is the identity matrix,
    squeezed. *)
Theorem contrastfromcols_design n p (D : 'M[F]_(n, p)) :
  (0 < p)%N -> \rank D = p ->
  contrastfromcols (Arr2 D) (Arr2 D) None
  = Ok (N_squeeze (Arr2 (1%:M : 'M[F]_p))).
Proof.
move=> _ rD; rewrite contrastfromcols_rows /contrast_of.
have [B BD] : exists B, B *m D = 1%:M.
  by apply/row_fullP; rewrite /row_full rD.
have [a1 _ _ _] := pinvP D.
have -> : pinv D *m D = 1%:M.
  by rewrite -[pinv D *m D]mul1mx -BD -mulmxA (mulmxA D (pinv D)) a1.
by rewrite /= !trmx1 mulmx1 rD eqxx.
Qed.

(** X23: a 1-D candidate always raises an [IndexError]: when its length
    is not the number of rows of the design the test on the shapes reads
    [T.shape[1]], and when it is, [Tp] is 1-D and [Tp.shape[1]] is
    read. *)
Theorem contrastfromcols_vector_any n p l (D : 'M[F]_(n, p)) (v : 'rV[F]_l) :
  contrastfromcols (Arr1 v) (Arr2 D) None = Raise IndexError.
Proof.
case: (altP (l =P n)) => [ln | ne].
  by move: v; rewrite ln => v; apply: contrastfromcols_vector.
by rewrite /contrastfromcols /= ne.
Qed.

End EstimableTheory.

(** ** The further properties on the scenario *)

Lemma fit_normal_equations_witness :
  exists st1 lfit st2 resid,
    [/\ setattr_design sqrtq (PyArr scenario_design) scenario_model
        = Ok (tt, st1),
        OLSModel_fit sqrtq (PyArr scenario_column) st1 = Ok (lfit, st2),
        lfit_resid lfit = Some resid
      & N_dot (N_transpose scenario_design) resid
        = Ok (Arr2 (0 : 'M[rat]_(2, 1)))].
Proof.
exact: (@fit_normal_equations rat nonfinite_rat sqrtq scenario_model
    scenario_design
          scenario_column 4 2 1 D0 Y0^T erefl erefl erefl).
Defined.

Lemma fit_exact_witness :
  exists st1 lfit st2 beta,
    [/\ setattr_design sqrtq (PyArr scenario_design) scenario_model
        = Ok (tt, st1),
        OLSModel_fit sqrtq (PyArr scenario_exact) st1 = Ok (lfit, st2),
        omap (@val rat) (lfit_resid lfit) = Some (Arr2 (0 : 'M[rat]_(4, 1))),
        lfit_beta lfit = Some beta
      & val beta = Arr2 (const_mx 1 : 'M[rat]_(2, 1))].
Proof.
have [st1 [lfit [st2 [beta [e1 e2 r0 [bs _] bE]]]]] :=
  @fit_exact rat nonfinite_rat sqrtq scenario_model scenario_design
      scenario_exact 4 2 1
    D0 (const_mx 1) erefl erefl erefl.
by exists st1, lfit, st2, beta; split=> //; apply: bE; apply: scenario_rank.
Defined.

Lemma predict_plus_resid_witness :
  exists st1 lfit st2 fitted resid,
    [/\ setattr_design sqrtq (PyArr scenario_design) scenario_model
        = Ok (tt, st1),
        OLSModel_fit sqrtq (PyArr scenario_column) st1 = Ok (lfit, st2),
        RegressionModelResults_predict lfit scenario_design = Ok fitted,
        lfit_resid lfit = Some resid
      & N_add fitted resid = Ok (val scenario_column)].
Proof.
exact: (@predict_plus_resid rat nonfinite_rat sqrtq scenario_model
    scenario_design
          scenario_column 4 2 1 D0 Y0^T erefl erefl erefl).
Defined.

Lemma fit_rows_mismatch_witness :
  exists2 st1,
    setattr_design sqrtq (PyArr scenario_design) scenario_model = Ok (tt, st1)
    & OLSModel_fit sqrtq (PyArr scenario_short) st1 = Raise ValueError.
Proof.
exact: (@fit_rows_mismatch rat nonfinite_rat sqrtq scenario_model
    scenario_design
          scenario_short 4 2 3 D0 erefl erefl erefl isT).
Defined.

Lemma fit_without_design_witness :
  OLSModel_fit sqrtq (PyArr scenario_response) scenario_model
  = Raise AttributeError.
Proof.
exact: (@fit_without_design rat nonfinite_rat sqrtq scenario_model
          (PyArr scenario_response) erefl erefl).
Defined.

(** The response of the scenario after the AR(1) transform with the
    correlation 3/5, and after the weighting with the weights 1, 4, 9 and
    16. *)
Lemma scenario_ar35_response :
  Arr2 (ar1 sqrtq (3%:R / 5%:R) Y0^T)
  = array2 [:: [:: 1]; [:: 3%:R]; [:: 4%:R^-1]; [:: 6%:R]].
Proof.
congr (Arr2 _); apply/matrixP=> i j; rewrite !mxE !ord1 {j}.
rewrite inordK ?(leq_ltn_trans (leq_pred _)) //.
by case: i => [[|[|[|[|i]]]] //= _]; apply/eqP.
Qed.

Lemma scenario_squares_response :
  Arr2 (weighted sqrtq W0 Y0^T)
  = array2 [:: [:: 1]; [:: 3%:R / 2%:R]; [:: 2%:R / 3%:R]; [:: 3%:R / 2%:R]].
Proof.
congr (Arr2 _); apply/matrixP=> i j.
rewrite /weighted mxE sqrtq_squares !mxE !ord1 {j}.
by case: i => [[|[|[|[|i]]]] //= _]; apply/eqP.
Qed.

Lemma fit_AR_witness :
  exists st1 lfit st2,
    [/\ setattr_design sqrtq (PyArr scenario_design) scenario_ar35_model
        = Ok (tt, st1),
        OLSModel_fit sqrtq (PyArr scenario_column) st1 = Ok (lfit, st2),
        omap (@val rat) (lfit_beta lfit)
        = Some (Arr2 (pinv (ar1 sqrtq (3%:R / 5%:R) D0)
                      *m ar1 sqrtq (3%:R / 5%:R) Y0^T))
      & lfit_Z lfit
        = Some (PyArr (Obj 5 (array2 [:: [:: 1]; [:: 3%:R]; [:: 4%:R^-1];
                                         [:: 6%:R]])))].
Proof.
have [st1 [lfit [st2 [e1 e2 [b _ z _]]]]] :=
  @fit_AR rat nonfinite_rat sqrtq scenario_ar35_model scenario_design
    scenario_column 3 2 1 D0 Y0^T erefl erefl erefl isT isT.
exists st1, lfit, st2; split; [exact: e1 | exact: e2 | exact: b |].
by rewrite z -scenario_ar35_response; case: e1 => <-.
Defined.

Lemma fit_WLS_witness :
  exists st1 lfit st2,
    [/\ setattr_design sqrtq (PyArr scenario_design) scenario_squares_model
        = Ok (tt, st1),
        OLSModel_fit sqrtq (PyArr scenario_column) st1 = Ok (lfit, st2),
        omap (@val rat) (lfit_beta lfit)
        = Some (Arr2 (pinv (weighted sqrtq W0 D0) *m weighted sqrtq W0 Y0^T))
      & lfit_Z lfit
        = Some (PyArr (Obj 6 (array2 [:: [:: 1]; [:: 3%:R / 2%:R];
                                         [:: 2%:R / 3%:R];
                                         [:: 3%:R / 2%:R]])))].
Proof.
have [st1 [lfit [st2 [e1 e2 b _ z]]]] :=
  @fit_WLS rat nonfinite_rat sqrtq scenario_squares_model scenario_design
    scenario_column scenario_squares 4 2 1 D0 Y0^T W0 erefl erefl erefl erefl
    erefl squares_gt0 sqrtq_squares_neq0.
exists st1, lfit, st2; split; [exact: e1 | exact: e2 | exact: b |].
by rewrite z -scenario_squares_response; case: e1 => <-.
Defined.

Lemma ARModel_whiten_no_rows_witness :
  ARModel_whiten sqrtq (PyArr scenario_empty) scenario_ar_model
  = Raise IndexError.
Proof.
exact: (@ARModel_whiten_no_rows rat nonfinite_rat sqrtq scenario_ar_model
          scenario_empty erefl).
Defined.

(** Four weights on a response of three entries raise; the single weight
    4 divides every row of the design of the scenario by 2. *)
Lemma WLSModel_whiten_shapes_witness :
  WLSModel_whiten sqrtq (PyArr scenario_short) scenario_wls_model
  = Raise ValueError
  /\ WLSModel_whiten sqrtq (PyArr scenario_design) scenario_four_model
     = Ok (PyArr (Obj 3 (array2 [:: [:: 2%:R^-1; 0]; [:: 2%:R^-1; 0];
                                    [:: 0; 2%:R^-1]; [:: 0; 2%:R^-1]])),
           Store (self scenario_four_model) 4).
Proof.
have [_ vec _ _] :=
  @WLSModel_whiten_shapes rat nonfinite_rat sqrtq scenario_wls_model
    scenario_short scenario_weights 4 (const_mx 1) erefl erefl.
have [_ _ _ single] :=
  @WLSModel_whiten_shapes rat nonfinite_rat sqrtq scenario_four_model
    scenario_design scenario_four 1 (\row_(j < 1) nth 0 [:: 4%:R] j)
    erefl erefl.
have four : at_ (\row_(j < 1) nth 0 [:: 4%:R] j : 'rV[rat]_1) 0 0 = 4%:R.
  by rewrite (at_ord _ 0 0) mxE.
split.
  exact: (vec 3 (\row_(j < 3) nth 0 [:: 1; 3%:R; 2%:R] j) erefl isT isT isT).
rewrite (single 4 2 D0 erefl erefl); try by rewrite four.
congr (Ok (PyArr (Obj _ (Arr2 _)), _)).
apply/matrixP=> i j; rewrite !mxE four.
by case: i => [[|[|[|[|i]]]] //= _]; case: j => [[|[|j]] //= _]; apply/eqP.
Defined.

Lemma t_unbound_beta_witness :
  RegressionModelResults_t sqrtq (module_globals rat) scenario_results None
  = Raise NameError.
Proof.
have [_ name_error] := @t_unbound_beta rat sqrtq scenario_results None.
exact: name_error isT.
Defined.

Lemma norm_resid_unbound_sd_witness :
  RegressionModelResults_norm_resid sqrtq None scenario_results
  = Raise NameError.
Proof.
have [_ _ name_error] := @norm_resid_unbound_sd rat sqrtq scenario_results.
exact: name_error isT isT.
Defined.

Lemma cov_beta_column_witness :
  RegressionModelResults_cov_beta scenario_results None (Some 0%N) None None
  = RegressionModelResults_cov_beta scenario_results
      (Some (Arr1 (delta_mx 0 0 : 'rV[rat]_2))) None None None.
Proof.
have [col _] :=
  @cov_beta_column rat scenario_results _ 2 C0 None erefl erefl.
exact: (col ord0).
Defined.

Lemma scenario_cov_sym : C0^T = C0.
Proof.
apply/matrixP=> i j; rewrite !mxE.
by case: i => [[|[|i]] //= ?]; case: j => [[|[|j]] //= ?].
Qed.

Lemma cov_beta_transpose_witness :
  exists2 V : 'M[rat]_1,
    RegressionModelResults_cov_beta scenario_results (Some scenario_contrast)
      None (Some (Arr0 1)) None = Ok (Some (Arr2 V))
    & V^T = V.
Proof.
have [_ _ sym] :=
  @cov_beta_transpose rat scenario_results _ 2 1 1 C0 M0 M0 1 erefl erefl
    scenario_cov_sym.
exact: sym.
Defined.

Lemma Tcontrast_needs_sd_witness :
  RegressionModelResults_Tcontrast sqrtq scenario_results scenario_contrast
    true false = Raise AttributeError.
Proof.
have [_ attr_error _] :=
  @Tcontrast_needs_sd rat sqrtq scenario_results scenario_contrast.
exact: (attr_error _ _ isT erefl (@N_dot21 rat 1 2 M0 B0)).
Defined.

Lemma Tcontrast_scale_twice_witness :
  RegressionModelResults_Tcontrast sqrtq scenario_results
    (array1 [:: 1; -1]) false true
  = Ok (TContrast (Some (Arr0 ((m0 *m B0^T) 0 0)))
                  (Some (Arr0 (sqrtq ((m0 *m C0 *m m0^T) 0 0 * 5%:R)
                               * sqrtq 5%:R)))
                  None,
        set__sd (Some (Arr0 (sqrtq 5%:R))) scenario_results).
Proof.
exact: (@Tcontrast_scale_twice rat sqrtq scenario_results _ _ _ _ 2 B0 m0 C0
          5%:R erefl erefl erefl erefl erefl erefl erefl erefl).
Defined.

Lemma Fcontrast_singular_witness :
  RegressionModelResults_Fcontrast scenario_results
    (Arr2 (0 : 'M[rat]_(1, 2))) None = Raise LinAlgError.
Proof.
have := @Fcontrast_singular rat scenario_results _ _ _ 2 0 B0 C0 5%:R 0
          erefl erefl erefl erefl erefl erefl.
by cbv zeta; rewrite !mul0mx unitmxE det0 unitr0.
Defined.

Lemma Fcontrast_invcov_quadratic_witness :
  RegressionModelResults_Fcontrast scenario_results
    (scal 3%:R scenario_contrast) (Some (Arr2 (1%:M : 'M[rat]_1)))
  = rmap (fun res => Contrast (omap (scal (3%:R * 3%:R)) (contrast_F res)))
         (RegressionModelResults_Fcontrast scenario_results scenario_contrast
            (Some (Arr2 (1%:M : 'M[rat]_1)))).
Proof.
apply: (@Fcontrast_invcov_quadratic rat scenario_results scenario_contrast
          (scal 3%:R scenario_contrast) (Arr2 (1%:M : 'M[rat]_1)) 3%:R).
exact: N_mul_scalar.
Defined.

Lemma isestimable_row_space_witness :
  isestimable scenario_contrast (array2 scenario_D) = Ok true.
Proof.
have [_ _ full] := @isestimable_row_space rat 1 4 2 M0 D0.
exact: full scenario_rank.
Defined.

Lemma contrast_of_one_column_witness :
  exists2 C,
    contrastfromcols (Arr2 (delta_mx 0 0 : 'cV[rat]_2))
      (Arr2 (1%:M : 'M[rat]_2)) None = Ok C
    & isestimable C (Arr2 (1%:M : 'M[rat]_2)) = Raise ValueError.
Proof.
have nz : (1%:M : 'M[rat]_2) *m (pinv 1%:M *m (delta_mx 0 0 : 'cV[rat]_2))
          != 0.
  rewrite pinv1 !mul1mx; apply/eqP=> /matrixP/(_ 0 0); rewrite !mxE /=.
  by move/eqP; rewrite oner_eq0.
have [e1 e2] := @contrast_of_one_column rat 2 2 1%:M (delta_mx 0 0) isT nz.
by eexists; [exact: e1 | exact: e2].
Defined.

Lemma contrastfromcols_estimable_witness :
  contrastfromcols (Arr2 (1%:M : 'M[rat]_2)) (Arr2 (1%:M : 'M[rat]_2)) None
  = Ok (Arr2 (pinv (1%:M : 'M[rat]_2) *m (1%:M : 'M[rat]_2))^T)
  /\ isestimable (Arr2 (pinv (1%:M : 'M[rat]_2) *m (1%:M : 'M[rat]_2))^T)
       (Arr2 (1%:M : 'M[rat]_2)) = Ok true.
Proof.
have rk : \rank ((1%:M : 'M[rat]_2) *m (pinv 1%:M *m (1%:M : 'M[rat]_2)))
          = 2%N.
  by rewrite pinv1 !mulmx1 mxrank1.
exact: (@contrastfromcols_estimable rat 2 2 2 1%:M 1%:M rk isT).
Defined.

Lemma contrastfromcols_design_witness :
  contrastfromcols (array2 scenario_D) (array2 scenario_D) None
  = Ok (N_squeeze (Arr2 (1%:M : 'M[rat]_2))).
Proof. exact: (@contrastfromcols_design rat 4 2 D0 isT scenario_rank). Defined.

Lemma df_resid_bounds_witness :
  exists st' (df : int),
    [/\ setattr_wdesign (PyArr scenario_design) scenario_model = Ok (tt, st'),
        OLSModel_df_resid st' = Ok (df, st'),
        df = (4%N : int) - (\rank D0 : int)
      & 0 <= df <= 4%N].
Proof.
exact: (@df_resid_bounds rat scenario_model scenario_design 4 2 D0 erefl).
Defined.
